(** * Bounded-concurrency job dispatcher: [scripts/jobs/main_parallel.py]

    A shallow embedding of the class [ParallelProcessing] and of the
    interleavings of its [run] method with the pool workers, followed by
    the properties of the dispatcher stated over that embedding.

    Python integers are unbounded, so they are [Z].  Tuples are lists.
    The overridable methods of the class are the fields of a record of
    methods; the base class is one inhabitant of that record. *)

From Stdlib Require Import ZArith String List Bool Lia.
From stdpp Require Import base option list.
Import ListNotations.
Open Scope Z_scope.
Set Warnings "-register-all".

(** ** Python values, exceptions, handles *)

(** The values the dispatcher looks at: only their truthiness matters
    ([if shared_vars:]). *)
Inductive pyval : Type :=
| PNone
| PBool (b : bool)
| PInt (z : Z)
| PStr (s : string)
| PList (l : list pyval)
| PTuple (l : list pyval)
| PDict (d : list (pyval * pyval)).

(** Python truth value testing. *)
Definition truthy (v : pyval) : bool :=
  match v with
  | PNone => false
  | PBool b => b
  | PInt z => negb (z =? 0)
  | PStr s => negb (String.eqb s EmptyString)
  | PList l => match l with [] => false | _ :: _ => true end
  | PTuple l => match l with [] => false | _ :: _ => true end
  | PDict d => match d with [] => false | _ :: _ => true end
  end.

(** The contents of a (managed) [dict]. *)
Definition dict : Type := list (pyval * pyval).

Inductive exn : Type :=
| NotImplementedError (msg : string)
| ValueError (msg : string)
| NameError (name : string)
| JobError (v : pyval).

Inductive outcome (A : Type) : Type :=
| Return (a : A)
| Raise (e : exn).
Arguments Return {A} a.
Arguments Raise {A} e.

(** One element of a job's argument tuple: a caller value, or the proxy
    of the shared result dictionary [resp_dict]. *)
Inductive arg : Type :=
| AVal (v : pyval)
| ARespDict.

(** Objects shared with the workers through [initargs]. *)
Inductive handle : Type :=
| HLock                      (* the [Lock()] built in [run] *)
| HShared (v : pyval).       (* whatever [get_shared_vars] returns *)

(** ** The class and its overridable methods *)

Record Methods : Type := {
  (* [process(self, *args)]: the job logic; it reads and writes the
     shared result dictionary and returns nothing, or raises. *)
  process : list arg -> dict -> dict * option exn;
  (* [critical_section(self, *args, **kwargs)] over the state it guards. *)
  critical_section :
    list pyval -> list (string * pyval) -> dict -> outcome pyval * dict;
  (* [get_shared_vars(self, manager, shared_vars)] *)
  get_shared_vars : pyval -> list handle
}.

Definition not_defined_msg : string :=
  "Process not defined ('NotImplementedError' exception).".

(** The methods as the base class [ParallelProcessing] defines them. *)
Definition Base : Methods := {|
  process := fun _ d => (d, Some (NotImplementedError not_defined_msg));
  critical_section := fun _ _ d => (Raise (NotImplementedError not_defined_msg), d);
  get_shared_vars := fun _ => []
|}.

(** The instance attributes set by [__init__]. *)
Record ParallelProcessing : Type := {
  _n_jobs : Z;
  _waiting_time : Z;
  init_args : list handle
}.

(** [__init__(self, n_jobs=-1, waiting_time=1)] on a host where
    [cpu_count()] returns [cpu_count]. *)
Definition __init__ (cpu_count : Z) (n_jobs waiting_time : Z) : ParallelProcessing := {|
  _n_jobs := if n_jobs >=? 0 then n_jobs else cpu_count;
  _waiting_time := if waiting_time >=? 0 then waiting_time else 60 * 60;
  init_args := []
|}.

(** ** Workers, the initializer and the critical-section gate *)

(** What a pool worker holds: the module-level global [par_lock], unset
    until [init_child] assigns it.  [init_calls] records the calls of the
    initializer in that worker, with their arguments. *)
Record worker : Type := {
  par_lock : option handle;
  init_calls : list (list handle)
}.

Definition fresh_worker : worker := {| par_lock := None; init_calls := [] |}.

(** [init_child(self, par_lock_, *args)], called on the tuple [initargs]:
    [global par_lock; par_lock = par_lock_].  (On an empty tuple the call
    is a [TypeError] and assigns nothing; [run] always puts a lock first.) *)
Definition init_child (initargs : list handle) (w : worker) : worker :=
  match initargs with
  | par_lock_ :: _ =>
      {| par_lock := Some par_lock_; init_calls := init_calls w ++ [initargs] |}
  | [] => {| par_lock := par_lock w; init_calls := init_calls w ++ [initargs] |}
  end.

(** [multiprocessing.pool.Pool(processes, initializer, initargs)]: the
    constructor rejects a size below one, otherwise starts [processes]
    workers and calls the initializer on [initargs], when there is one,
    in each of them.  [ThreadPool(processes)] is the same constructor
    with its defaults: no initializer, [initargs = ()]. *)
Definition Pool (processes : Z) (initializer : option (list handle -> worker -> worker))
    (initargs : list handle) : outcome (list worker) :=
  if processes <? 1 then Raise (ValueError "Number of processes must be at least 1")
  else Return (repeat (match initializer with
                       | Some f => f initargs fresh_worker
                       | None => fresh_worker
                       end) (Z.to_nat processes)).

Definition ThreadPool (processes : Z) : outcome (list worker) := Pool processes None [].

Inductive event : Type :=
| EvAcquire
| EvCall (args : list pyval) (kwargs : list (string * pyval))
| EvRelease.

(** The lock [par_lock] refers to, the state guarded by it, and the
    history of what happened to them. *)
Record mem : Type := {
  locked : bool;
  guarded : dict;
  history : list event
}.

Inductive gate_result : Type :=
| GReturn (v : pyval)
| GRaise (e : exn)
| GWait.                      (* the lock is taken: [with par_lock] waits *)

(** [_enter_crit_sec(self, *args, **kwargs)]:
    under [with par_lock], [res] is bound to the result of
    [self.critical_section] called with the same arguments, then
    [return res].  The lock is released when the [with] block is left,
    on return and on exception alike. *)
Definition _enter_crit_sec (m : Methods) (w : worker)
    (args : list pyval) (kwargs : list (string * pyval)) (mu : mem) : gate_result * mem :=
  match par_lock w with
  | None => (GRaise (NameError "par_lock"), mu)
  | Some _ =>
      if locked mu then (GWait, mu)
      else
        let mu1 := {| locked := true; guarded := guarded mu;
                      history := history mu ++ [EvAcquire] |} in
        let '(res, d) := critical_section m args kwargs (guarded mu1) in
        let mu2 := {| locked := locked mu1; guarded := d;
                      history := history mu1 ++ [EvCall args kwargs] |} in
        let mu3 := {| locked := false; guarded := guarded mu2;
                      history := history mu2 ++ [EvRelease] |} in
        match res with
        | Return v => (GReturn v, mu3)
        | Raise e => (GRaise e, mu3)
        end
  end.

(** ** [run]: the submitting thread, the pool workers, the result handler *)

(** [run] is followed move by move.  The thread that called it, the
    workers of the pool and the pool's result handler run side by side;
    a move is one access to a shared object or one call.  [self._queue]
    is a proxy of a value kept by the manager: [self._queue.value += 1]
    and [self._queue.value -= 1] ask the manager for the value and then
    ask it to store the new one, two moves between which the others may
    move.  A call of [self.process] is one move. *)

(** Where a submitted call of [_execute] stands. *)
Inductive tstate : Type :=
| Queued                      (* in the pool's task queue *)
| Running                     (* a worker is inside [self.process] *)
| DecRead                     (* [process] returned; [_queue.value] not read yet *)
| DecWrite (tmp : Z)          (* [_queue.value] read as [tmp]; [tmp - 1] not stored yet *)
| Done
| Failed (e : exn).           (* [process] raised [e]; the error callback is due *)

Record task : Type := {
  targs : list arg;           (* the [args] given to [apply_async] *)
  tst : tstate
}.

(** Where the thread that called [run] stands. *)
Inductive spc : Type :=
| Enter                       (* before [with lock] *)
| Poll                        (* at the [for]; inside it, at the test of the [while] *)
| IncRead                     (* test passed; [_queue.value] not read yet *)
| IncWrite (tmp : Z)          (* [_queue.value] read as [tmp]; [tmp + 1] not stored yet *)
| Submit                      (* before [apply_async] *)
| Join.                       (* after the [with] block: [close], [join] *)

Inductive status : Type :=
| Alive
| Returned (resp : dict)      (* [run] returned [resp_dict] *)
| Raised (e : exn)            (* [run] raised [e] to its caller *)
| Exited (code : Z).          (* [os._exit(code)] *)

Inductive logrec : Type :=
| LogDebugPoolFull (n_jobs waiting_time : Z)
| LogError (e : exn)
| LogInfoExecTime.

Record state : Type := {
  queue_value : Z;            (* [self._queue.value] *)
  lock_held : bool;           (* the manager lock [lock] *)
  todo : list (list arg);     (* what is left of [args_list], current [args] first *)
  pc : spc;
  tasks : list task;          (* the calls of [apply_async], in order *)
  resp_dict : dict;
  invoked : list (list arg);  (* the calls of [self.process], in order *)
  logs : list logrec;
  slept : list Z;             (* the calls of [time.sleep] *)
  pool_workers : list worker;
  shared_calls : list pyval;  (* the calls of [get_shared_vars] *)
  st : status
}.

Definition with_main (s : state) (q : Z) (l : bool) (td : list (list arg)) (p : spc)
    (ts : list task) : state := {|
  queue_value := q; lock_held := l; todo := td; pc := p; tasks := ts;
  resp_dict := resp_dict s; invoked := invoked s; logs := logs s; slept := slept s;
  pool_workers := pool_workers s; shared_calls := shared_calls s; st := st s
|}.

Definition with_sleep (s : state) (r : logrec) (t : Z) : state := {|
  queue_value := queue_value s; lock_held := lock_held s; todo := todo s; pc := pc s;
  tasks := tasks s; resp_dict := resp_dict s; invoked := invoked s;
  logs := logs s ++ [r]; slept := slept s ++ [t];
  pool_workers := pool_workers s; shared_calls := shared_calls s; st := st s
|}.

Definition with_end (s : state) (r : logrec) (x : status) : state := {|
  queue_value := queue_value s; lock_held := lock_held s; todo := todo s; pc := pc s;
  tasks := tasks s; resp_dict := resp_dict s; invoked := invoked s;
  logs := logs s ++ [r]; slept := slept s;
  pool_workers := pool_workers s; shared_calls := shared_calls s; st := x
|}.

Definition with_work (s : state) (q : Z) (ts : list task) (d : dict)
    (inv : list (list arg)) : state := {|
  queue_value := q; lock_held := lock_held s; todo := todo s; pc := pc s;
  tasks := ts; resp_dict := d; invoked := inv; logs := logs s; slept := slept s;
  pool_workers := pool_workers s; shared_calls := shared_calls s; st := st s
|}.

Definition is_done (t : task) : bool :=
  match tst t with Done => true | _ => false end.

(** A worker is occupied by a task from the moment it takes it until
    [_execute] has returned or raised. *)
Definition is_busy (t : task) : bool :=
  match tst t with Running | DecRead | DecWrite _ => true | _ => false end.

Definition busy (ts : list task) : nat := length (List.filter is_busy ts).

Definition set_tst (ts : list task) (i : nat) (t : task) (x : tstate) : list task :=
  <[i := {| targs := targs t; tst := x |}]> ts.

Section Run.

Variable self : ParallelProcessing.
Variable m : Methods.

(** One step of the thread that called [run] (lines 150 to 169). *)
Definition main_step (s : state) : option state :=
  match pc s, todo s with
  | Enter, _ =>
      Some (with_main s (queue_value s) true (todo s) Poll (tasks s))
  | Poll, _ :: _ =>
      if queue_value s <? _n_jobs self
      then Some (with_main s (queue_value s) (lock_held s) (todo s) IncRead (tasks s))
      else Some (with_sleep s (LogDebugPoolFull (_n_jobs self) (_waiting_time self))
                   (_waiting_time self))
  | IncRead, _ :: _ =>
      Some (with_main s (queue_value s) (lock_held s) (todo s) (IncWrite (queue_value s)) (tasks s))
  | IncWrite tmp, _ :: _ =>
      Some (with_main s (tmp + 1) (lock_held s) (todo s) Submit (tasks s))
  | Submit, args :: rest =>
      let resp_args := args ++ [ARespDict] in
      Some (with_main s (queue_value s) (lock_held s) rest Poll
              (tasks s ++ [{| targs := resp_args; tst := Queued |}]))
  | Poll, [] =>
      Some (with_main s (queue_value s) false [] Join (tasks s))
  | Join, _ =>
      if forallb is_done (tasks s)
      then Some (with_end s LogInfoExecTime (Returned (resp_dict s)))
      else None
  | _, [] => None
  end.

(** One step of the worker that holds the [i]-th submitted call:
    taking it from the queue, then [_execute] (lines 93 and 94). *)
Definition worker_step (i : nat) (s : state) : option state :=
  match tasks s !! i with
  | None => None
  | Some t =>
      match tst t with
      | Queued =>
          if (busy (tasks s) <? length (pool_workers s))%nat
          then Some (with_work s (queue_value s) (set_tst (tasks s) i t Running)
                       (resp_dict s) (invoked s))
          else None
      | Running =>
          match process m (targs t) (resp_dict s) with
          | (d, None) =>
              Some (with_work s (queue_value s) (set_tst (tasks s) i t DecRead)
                      d (invoked s ++ [targs t]))
          | (d, Some e) =>
              Some (with_work s (queue_value s) (set_tst (tasks s) i t (Failed e))
                      d (invoked s ++ [targs t]))
          end
      | DecRead =>
          Some (with_work s (queue_value s) (set_tst (tasks s) i t (DecWrite (queue_value s)))
                  (resp_dict s) (invoked s))
      | DecWrite tmp =>
          Some (with_work s (tmp - 1) (set_tst (tasks s) i t Done)
                  (resp_dict s) (invoked s))
      | Done | Failed _ => None
      end
  end.

(** The pool's result handler on the failure of the [i]-th call:
    [_error_callback] (lines 105 and 106). *)
Definition _error_callback (result : exn) (s : state) : state :=
  with_end s (LogError result) (Exited 1).

Definition handler_step (i : nat) (s : state) : option state :=
  match tasks s !! i with
  | Some t => match tst t with
              | Failed e => Some (_error_callback e s)
              | _ => None
              end
  | None => None
  end.

Inductive actor : Type :=
| Main
| Worker (i : nat)
| Handler (i : nat).

(** Nothing moves once the process has exited or [run] has returned or raised. *)
Definition step (a : actor) (s : state) : option state :=
  match st s with
  | Alive =>
      match a with
      | Main => main_step s
      | Worker i => worker_step i s
      | Handler i => handler_step i s
      end
  | _ => None
  end.

(** A schedule is the order in which the actors move. *)
Fixpoint exec (sched : list actor) (s : state) : option state :=
  match sched with
  | [] => Some s
  | a :: sched' =>
      match step a s with
      | Some s' => exec sched' s'
      | None => None
      end
  end.

(** Lines 135 to 148 of [run]: the manager objects, [init_args], the pool. *)
Definition run_setup (args_list : list (list arg)) (use_multithreading : bool)
    (shared_vars : pyval) : state :=
  let init_args := if truthy shared_vars
                   then [HLock] ++ get_shared_vars m shared_vars
                   else [HLock] in
  let calls := if truthy shared_vars then [shared_vars] else [] in
  let pool := if negb use_multithreading
              then Pool (_n_jobs self) (Some init_child) init_args
              else ThreadPool (_n_jobs self) in
  {| queue_value := 0; lock_held := false; todo := args_list; pc := Enter;
     tasks := []; resp_dict := []; invoked := []; logs := []; slept := [];
     pool_workers := match pool with Return ws => ws | Raise _ => [] end;
     shared_calls := calls;
     st := match pool with Return _ => Alive | Raise e => Raised e end |}.

(** [run(self, args_list, use_multithreading, shared_vars)] under a schedule. *)
Definition run (args_list : list (list arg)) (use_multithreading : bool)
    (shared_vars : pyval) (sched : list actor) : option state :=
  exec sched (run_setup args_list use_multithreading shared_vars).

End Run.

(** The schedule under which every job is carried through by a worker
    right after its submission: the caller enters the lock, then for each
    job makes its four moves (test, read, store, [apply_async]) and a
    worker makes its four (take, [process], read, store); then the caller
    leaves the lock and joins. *)
Fixpoint serve (njobs : nat) (i : nat) : list actor :=
  match njobs with
  | O => []
  | S k => [Main; Main; Main; Main] ++ [Worker i; Worker i; Worker i; Worker i]
             ++ serve k (S i)
  end.

Definition sequential (njobs : nat) : list actor :=
  [Main] ++ serve njobs 0 ++ [Main; Main].

(** What [apply_async] is given for the job [args]. *)
Definition resp_args (args : list arg) : list arg := args ++ [ARespDict].

(** The [i]-th call once [_execute] has returned. *)
Definition done_task (a : list arg) : task := {| targs := resp_args a; tst := Done |}.

(** ** Properties of the states of a run *)

(** The caller is past the loop only when nothing is left to submit, and
    [run] returns only from there, with every call done and with the
    contents of [resp_dict]. *)
Definition loop_inv (s : state) : Prop :=
  (pc s = Join -> todo s = []) /\
  (forall r, st s = Returned r ->
     pc s = Join /\ forallb is_done (tasks s) = true /\ r = resp_dict s).

(** Nothing to submit, nothing submitted, nothing run, nothing stored,
    and the caller on its way from the lock to the join. *)
Definition idle (s : state) : Prop :=
  todo s = [] /\ tasks s = [] /\ invoked s = [] /\ resp_dict s = [] /\
  (pc s = Enter \/ pc s = Poll \/ pc s = Join).

(** The [i]-th call has raised [e]. *)
Definition failed_at (i : nat) (e : exn) (s : state) : Prop :=
  exists t, tasks s !! i = Some t /\ tst t = Failed e.

(** After a failure: the process is still there, or it has exited with
    status 1 after logging an error. *)
Definition aborting (i : nat) (e : exn) (s : state) : Prop :=
  failed_at i e s /\
  (st s = Alive \/ (st s = Exited 1 /\ exists e', In (LogError e') (logs s))).

(** What the counter is never seen to exceed, with the values read from
    it and not stored back yet. *)
Definition bounded (n : Z) (s : state) : Prop :=
  queue_value s <= n /\
  (pc s = IncRead -> queue_value s < n) /\
  (forall tmp, pc s = IncWrite tmp -> tmp < n) /\
  (forall i t tmp, tasks s !! i = Some t -> tst t = DecWrite tmp -> tmp <= n).

(** The moves a call still needs before [_execute] has returned. *)
Definition moves_left (t : task) : nat :=
  match tst t with
  | Queued => 4
  | Running => 3
  | DecRead => 2
  | DecWrite _ => 1
  | Done | Failed _ => 0
  end.

Fixpoint work_left (ts : list task) : nat :=
  match ts with
  | [] => 0
  | t :: ts' => moves_left t + work_left ts'
  end.

(** The moves the caller still needs, the calls it has yet to submit
    included: eight per job (four of the caller, four of a worker), less
    those already made for the current job, and two to leave the lock and
    join. *)
Definition caller_left (p : spc) (td : list (list arg)) : nat :=
  match p with
  | Enter => 8 * length td + 3
  | Poll => 8 * length td + 2
  | IncRead => 8 * length td + 1
  | IncWrite _ => 8 * length td
  | Submit => 8 * length td - 1
  | Join => 1
  end.

Definition moves_to_return (s : state) : nat :=
  match st s with
  | Alive => work_left (tasks s) + caller_left (pc s) (todo s)
  | _ => 0
  end.

Definition is_queued (t : task) : bool :=
  match tst t with Queued => true | _ => false end.

(** What holds of every state of a run with a pool and with jobs that do
    not raise. *)
Definition sound (n : Z) (s : state) : Prop :=
  bounded n s /\
  pool_workers s <> [] /\
  (forall i t e, tasks s !! i = Some t -> tst t <> Failed e) /\
  (pc s = Enter -> tasks s = [] /\ queue_value s = 0) /\
  (pc s = Poll -> forallb is_done (tasks s) = true -> queue_value s < n) /\
  (pc s = Join -> todo s = []) /\
  (todo s = [] -> pc s = Enter \/ pc s = Poll \/ pc s = Join) /\
  (st s = Alive \/ exists r, st s = Returned r).

(** The call has been through [self.process]. *)
Definition started (t : task) : bool :=
  match tst t with Queued | Running => false | _ => true end.

(** ** The counter when its updates are not interleaved *)

(** The move of [a] has read the counter and has not stored it yet. *)
Definition in_update (a : actor) (s : state) : bool :=
  match a with
  | Main => match pc s with IncWrite _ => true | _ => false end
  | Worker i =>
      match tasks s !! i with
      | Some t => match tst t with DecWrite _ => true | _ => false end
      | None => false
      end
  | Handler _ => false
  end.

(** A move in which reading and storing the counter are one: what
    [self._queue.value += 1] and [self._queue.value -= 1] would do if
    nothing could come in between. *)
Definition atomic_step (self : ParallelProcessing) (m : Methods) (a : actor) (s : state)
    : option state :=
  match step self m a s with
  | Some s' => if in_update a s' then step self m a s' else Some s'
  | None => None
  end.

Fixpoint atomic_exec (self : ParallelProcessing) (m : Methods) (sched : list actor)
    (s : state) : option state :=
  match sched with
  | [] => Some s
  | a :: sched' =>
      match atomic_step self m a s with
      | Some s' => atomic_exec self m sched' s'
      | None => None
      end
  end.

(** The calls submitted whose [_execute] has not returned. *)
Definition undone (ts : list task) : nat :=
  length (List.filter (fun t => negb (is_done t)) ts).

Definition counted (n : Z) (s : state) : Prop :=
  (forall tmp, pc s <> IncWrite tmp) /\
  (forall i t tmp, tasks s !! i = Some t -> tst t <> DecWrite tmp) /\
  queue_value s = Z.of_nat (undone (tasks s))
                  + (match pc s with Submit => 1 | _ => 0 end) /\
  queue_value s <= n /\
  (pc s = IncRead -> queue_value s < n).

(** ** More properties of the states of a run *)

(** The calls whose [_execute] has returned. *)
Definition ndone (ts : list task) : nat := length (List.filter is_done ts).

(** Between which values the counter moves: no call finished that was
    not submitted, no slot taken that was not asked for. *)
Definition counter_low (s : state) : Z := - Z.of_nat (ndone (tasks s)).

Definition counter_high (s : state) : Z :=
  Z.of_nat (length (tasks s)) + match pc s with Submit => 1 | _ => 0 end.

(** The counter and the values read from it and not stored yet are
    within these bounds. *)
Definition tracked (s : state) : Prop :=
  counter_low s <= queue_value s <= counter_high s /\
  (forall tmp, pc s = IncWrite tmp -> counter_low s <= tmp <= counter_high s) /\
  (forall i t tmp, tasks s !! i = Some t -> tst t = DecWrite tmp ->
     counter_low s <= tmp <= counter_high s).

(** What the job logic leaves in an empty dictionary when it is called
    on [calls] in turn. *)
Definition replay (m : Methods) (calls : list (list arg)) : dict :=
  fold_left (fun d a => fst (process m a d)) calls [].

(** The records of the waits of a run. *)
Definition wait_records (self : ParallelProcessing) (s : state) : list logrec :=
  map (fun t => LogDebugPoolFull (_n_jobs self) t) (slept s).

(** What a run has logged, by what became of it. *)
Definition logged (self : ParallelProcessing) (s : state) : Prop :=
  match st s with
  | Alive | Raised _ => logs s = wait_records self s
  | Returned _ => logs s = wait_records self s ++ [LogInfoExecTime]
  | Exited code =>
      code = 1 /\
      exists i t e, tasks s !! i = Some t /\ tst t = Failed e /\
                    logs s = wait_records self s ++ [LogError e]
  end.

(** The caller holds the manager lock from the [with] to the end of the loop. *)
Definition in_loop (p : spc) : bool :=
  match p with Enter | Join => false | _ => true end.

(** ** Several workers at the gate *)

(** Calls of [_enter_crit_sec] made side by side in workers where
    [init_child] has installed the lock.  A call takes the lock when it is
    free (and waits otherwise), then calls [critical_section], then
    leaves the [with] block, which gives the lock back. *)
Inductive gpc : Type :=
| GOutside                          (* before [with par_lock] *)
| GHolding                          (* lock taken; [critical_section] not called yet *)
| GLeaving (res : outcome pyval)    (* [critical_section] is over; still in the block *)
| GOver (res : outcome pyval).      (* the block is left: [res] is returned or raised *)

Record gcall : Type := {
  gargs : list pyval;
  gkwargs : list (string * pyval);
  gpos : gpc
}.

Record gstate : Type := {
  gmem : mem;
  gcalls : list gcall;
  (* the arguments of the calls that got the lock, in the order they got it *)
  gorder : list (list pyval * list (string * pyval))
}.

Definition set_gpos (cs : list gcall) (i : nat) (c : gcall) (p : gpc) : list gcall :=
  <[i := {| gargs := gargs c; gkwargs := gkwargs c; gpos := p |}]> cs.

Definition gate_step (m : Methods) (i : nat) (g : gstate) : option gstate :=
  match gcalls g !! i with
  | None => None
  | Some c =>
      match gpos c with
      | GOutside =>
          if locked (gmem g) then None
          else Some {| gmem := {| locked := true; guarded := guarded (gmem g);
                                  history := history (gmem g) ++ [EvAcquire] |};
                       gcalls := set_gpos (gcalls g) i c GHolding;
                       gorder := gorder g ++ [(gargs c, gkwargs c)] |}
      | GHolding =>
          let '(res, d) := critical_section m (gargs c) (gkwargs c) (guarded (gmem g)) in
          Some {| gmem := {| locked := locked (gmem g); guarded := d;
                             history := history (gmem g)
                                        ++ [EvCall (gargs c) (gkwargs c)] |};
                  gcalls := set_gpos (gcalls g) i c (GLeaving res);
                  gorder := gorder g |}
      | GLeaving res =>
          Some {| gmem := {| locked := false; guarded := guarded (gmem g);
                             history := history (gmem g) ++ [EvRelease] |};
                  gcalls := set_gpos (gcalls g) i c (GOver res);
                  gorder := gorder g |}
      | GOver _ => None
      end
  end.

Fixpoint gate_exec (m : Methods) (sched : list nat) (g : gstate) : option gstate :=
  match sched with
  | [] => Some g
  | i :: sched' =>
      match gate_step m i g with
      | Some g' => gate_exec m sched' g'
      | None => None
      end
  end.

(** All the calls before the gate. *)
Definition gate_start (mu : mem) (calls : list (list pyval * list (string * pyval)))
    : gstate := {|
  gmem := mu;
  gcalls := map (fun c => {| gargs := fst c; gkwargs := snd c; gpos := GOutside |}) calls;
  gorder := []
|}.

Definition inside (c : gcall) : bool :=
  match gpos c with GHolding | GLeaving _ => true | _ => false end.

Definition got_lock (c : gcall) : bool :=
  match gpos c with GOutside => false | _ => true end.

Definition gkey (c : gcall) : list pyval * list (string * pyval) := (gargs c, gkwargs c).

(** The same calls made one after the other by one worker. *)
Fixpoint gate_seq (m : Methods) (w : worker)
    (calls : list (list pyval * list (string * pyval))) (mu : mem)
    : list gate_result * mem :=
  match calls with
  | [] => ([], mu)
  | c :: calls' =>
      let '(r, mu1) := _enter_crit_sec m w (fst c) (snd c) mu in
      let '(rs, mu2) := gate_seq m w calls' mu1 in
      (r :: rs, mu2)
  end.

(** The memory is what the calls that got the lock leave when made one
    after the other, up to the call that holds the lock, if any, which
    has gone part of its way. *)
Definition serial (m : Methods) (w : worker) (mu0 : mem) (g : gstate) : Prop :=
  ((forall i c, gcalls g !! i = Some c -> inside c = false) /\
   gmem g = snd (gate_seq m w (gorder g) mu0))
  \/
  (exists i c prefix,
      gcalls g !! i = Some c /\
      gorder g = prefix ++ [(gargs c, gkwargs c)] /\
      (forall j c', gcalls g !! j = Some c' -> inside c' = true -> j = i) /\
      let base := snd (gate_seq m w prefix mu0) in
      match gpos c with
      | GHolding =>
          gmem g = {| locked := true; guarded := guarded base;
                      history := history base ++ [EvAcquire] |}
      | GLeaving res =>
          gmem g = {| locked := true;
                      guarded := snd (critical_section m (gargs c) (gkwargs c) (guarded base));
                      history := history base
                                 ++ [EvAcquire; EvCall (gargs c) (gkwargs c)] |} /\
          res = fst (critical_section m (gargs c) (gkwargs c) (guarded base))
      | _ => False
      end).

(** ** Concrete jobs used in the examples *)

Module Examples.

(** A job logic that stores [key -> 2 * key] in the result dictionary for
    a first integer argument [key], and raises on anything else. *)
Definition doubling : Methods := {|
  process := fun a d =>
    match a with
    | AVal (PInt k) :: _ => ((PInt k, PInt (2 * k)) :: d, None)
    | _ => (d, Some (JobError PNone))
    end;
  critical_section := fun _ _ d => (Return (PInt (Z.of_nat (length d))), (PNone, PNone) :: d);
  get_shared_vars := fun v => [HShared v]
|}.

(** A job logic that never raises: it stores how many results it found
    under the number of the entry. *)
Definition tally : Methods := {|
  process := fun _ d => ((PInt (Z.of_nat (length d)), PNone) :: d, None);
  critical_section := fun _ _ d => (Return PNone, d);
  get_shared_vars := fun _ => []
|}.

Definition job (k : Z) : list arg := [AVal (PInt k)].
Definition bad_job : list arg := [AVal PNone].

(** A worker carries a call through: take it, run [process], read the
    counter, store the counter. *)
Definition carry (i : nat) : list actor := [Worker i; Worker i; Worker i; Worker i].

(** The caller counts and submits one job without waiting. *)
Definition admission : list actor := [Main; Main; Main; Main].

(** Two workers, two jobs: both jobs are run, both workers read the
    counter (2) before either stores it, and both store 1. *)
Definition lost_decrement : list actor :=
  ([Main] ++ admission ++ admission
   ++ [Worker 0; Worker 0; Worker 1; Worker 1]      (* both jobs run *)
   ++ [Worker 0; Worker 1]                          (* both read 2 *)
   ++ [Worker 0; Worker 1]                          (* both store 1 *)
   ++ [Main; Main])%nat.

(** Two workers, four jobs: the caller reads the counter (1) for the
    second job, the first worker reads it too, the caller stores 2, the
    worker stores 0; the increment for the second job is lost, and the
    counter ends below 0. *)
Definition lost_increment : list actor :=
  ([Main] ++ admission
   ++ [Worker 0; Worker 0]                          (* first job run *)
   ++ [Main; Main]                                  (* test passed, caller reads 1 *)
   ++ [Worker 0]                                    (* worker reads 1 *)
   ++ [Main]                                        (* caller stores 2 *)
   ++ [Worker 0]                                    (* worker stores 0 *)
   ++ [Main]                                        (* second job submitted *)
   ++ admission ++ admission
   ++ carry 1 ++ carry 2 ++ carry 3
   ++ [Main; Main])%nat.

(** Two workers; the only job submitted, a failing one, is in a worker. *)
Definition one_job_running : state := {|
  queue_value := 1; lock_held := true; todo := []; pc := Poll;
  tasks := [{| targs := bad_job ++ [ARespDict]; tst := Running |}];
  resp_dict := []; invoked := []; logs := []; slept := [];
  pool_workers := [init_child [HLock] fresh_worker; init_child [HLock] fresh_worker];
  shared_calls := []; st := Alive
|}.

(** Two calls of the gate, and a free lock on an empty guarded state. *)
Definition two_calls : list (list pyval * list (string * pyval)) :=
  [([PInt 1], []); ([PInt 2], [])].

Definition free_mem : mem := {| locked := false; guarded := []; history := [] |}.

End Examples.

(** ** General facts about steps and schedules *)

Lemma exec_app self m sched1 sched2 s :
  exec self m (sched1 ++ sched2) s =
  match exec self m sched1 s with
  | Some s' => exec self m sched2 s'
  | None => None
  end.
Proof.
  revert s. induction sched1 as [|a sched1 IH]; intros s; simpl; [reflexivity|].
  destruct (step self m a s); [apply IH | reflexivity].
Qed.

(** A property kept by every step is kept by every schedule. *)
Lemma exec_invariant self m (P : state -> Prop) :
  (forall a s s', P s -> step self m a s = Some s' -> P s') ->
  forall sched s s', P s -> exec self m sched s = Some s' -> P s'.
Proof.
  intros Hstep sched. induction sched as [|a sched IH]; intros s s' HP Hex; simpl in Hex.
  - congruence.
  - destruct (step self m a s) as [s1|] eqn:Hs; [|discriminate].
    eapply IH; [eapply Hstep; eassumption | exact Hex].
Qed.

Lemma step_alive self m a s s' : step self m a s = Some s' -> st s = Alive.
Proof. unfold step. destruct (st s); congruence. Qed.

Lemma exec_not_alive self m sched s s' :
  st s <> Alive -> exec self m sched s = Some s' -> s' = s.
Proof.
  intros Hst. destruct sched as [|a sched]; simpl; [congruence|].
  destruct (step self m a s) eqn:Hs; [|discriminate].
  apply step_alive in Hs. contradiction.
Qed.

(** Case analysis on an enabled step: one goal per line of code that can move. *)
Ltac step_cases H :=
  let Hst := fresh "Hst" in
  pose proof (step_alive _ _ _ _ _ H) as Hst;
  unfold step in H; rewrite Hst in H;
  try match type of H with
      | match ?a with Main => _ | Worker _ => _ | Handler _ => _ end = _ => destruct a
      end;
  unfold main_step, worker_step, handler_step in H;
  repeat match type of H with
         | match ?u with _ => _ end = _ => destruct u eqn:?
         end;
  try discriminate H;
  inversion H; subst; clear H.

Lemma step_pool_workers self m a s s' :
  step self m a s = Some s' -> pool_workers s' = pool_workers s.
Proof. intros H. step_cases H; reflexivity. Qed.

(** ** The constructor *)

Lemma waiting_time_resolved cpu n_jobs waiting_time :
  _waiting_time (__init__ cpu n_jobs waiting_time) =
  if waiting_time <? 0 then 3600 else waiting_time.
Proof.
  unfold __init__; simpl.
  destruct (Z.geb_spec waiting_time 0), (Z.ltb_spec waiting_time 0); lia.
Qed.

Lemma n_jobs_resolved cpu n_jobs waiting_time :
  _n_jobs (__init__ cpu n_jobs waiting_time) = if n_jobs <? 0 then cpu else n_jobs.
Proof.
  unfold __init__; simpl.
  destruct (Z.geb_spec n_jobs 0), (Z.ltb_spec n_jobs 0); lia.
Qed.

(** Every [time.sleep] of a run is given [self._waiting_time]. *)
Lemma step_slept self m a s s' :
  Forall (fun t => t = _waiting_time self) (slept s) ->
  step self m a s = Some s' ->
  Forall (fun t => t = _waiting_time self) (slept s').
Proof.
  intros HF H. step_cases H; simpl; try assumption.
  apply Forall_app; split; [assumption | repeat constructor].
Qed.

(** C8: a negative [waiting_time] is replaced by one hour (3600
    seconds), a non-negative one (0 included) is kept, and every sleep
    between two admission attempts of a run lasts exactly the resolved
    value. *)
Theorem poll_interval_resolution (cpu n_jobs waiting_time : Z) :
  (waiting_time < 0 -> _waiting_time (__init__ cpu n_jobs waiting_time) = 3600) /\
  (0 <= waiting_time -> _waiting_time (__init__ cpu n_jobs waiting_time) = waiting_time) /\
  (forall m args_list use_multithreading shared_vars sched s,
      run (__init__ cpu n_jobs waiting_time) m args_list use_multithreading shared_vars sched
        = Some s ->
      Forall (fun t => t = _waiting_time (__init__ cpu n_jobs waiting_time)) (slept s)).
Proof.
  repeat split.
  - intros H. rewrite waiting_time_resolved. destruct (Z.ltb_spec waiting_time 0); lia.
  - intros H. rewrite waiting_time_resolved. destruct (Z.ltb_spec waiting_time 0); lia.
  - intros m args_list mt sv sched s Hrun. unfold run in Hrun.
    eapply (exec_invariant _ m (fun s => Forall (fun t => t = _waiting_time _) (slept s)));
      [ intros a s1 s2; apply step_slept | | exact Hrun ].
    simpl. constructor.
Qed.

(** With one worker and two jobs the caller sleeps while the first job
    is still counted: both sleeps last the five seconds asked for. *)
Lemma poll_interval_resolution_witness :
  _waiting_time (__init__ 4 1 (-7)) = 3600 /\
  _waiting_time (__init__ 4 1 0) = 0 /\
  exists s,
    run (__init__ 4 1 5) Examples.doubling [Examples.job 1; Examples.job 2] false PNone
      ([Main] ++ Examples.admission ++ [Main; Main]) = Some s /\
    slept s = [5; 5] /\
    Forall (fun t => t = _waiting_time (__init__ 4 1 5)) (slept s).
Proof.
  split; [|split].
  - apply (proj1 (poll_interval_resolution 4 1 (-7))). lia.
  - apply (proj1 (proj2 (poll_interval_resolution 4 1 0))). lia.
  - eexists. split; [vm_compute; reflexivity|]. split; [reflexivity|].
    eapply (proj2 (proj2 (poll_interval_resolution 4 1 5))
              Examples.doubling [Examples.job 1; Examples.job 2] false PNone
              ([Main] ++ Examples.admission ++ [Main; Main])).
    vm_compute. reflexivity.
Defined.

(** ** The pool and the initializer *)

Lemma run_setup_alive self m args_list mt sv :
  1 <= _n_jobs self -> st (run_setup self m args_list mt sv) = Alive.
Proof.
  intros Hn. unfold run_setup, ThreadPool, Pool; simpl.
  destruct (Z.ltb_spec (_n_jobs self) 1); [lia|].
  destruct (negb mt); reflexivity.
Qed.

Lemma run_setup_raises self m args_list mt sv :
  _n_jobs self < 1 ->
  st (run_setup self m args_list mt sv)
    = Raised (ValueError "Number of processes must be at least 1") /\
  pool_workers (run_setup self m args_list mt sv) = [].
Proof.
  intros Hn. unfold run_setup, ThreadPool, Pool; simpl.
  destruct (Z.ltb_spec (_n_jobs self) 1); [|lia].
  destruct (negb mt); split; reflexivity.
Qed.

(** In a pool of processes every worker has run [init_child] once, on
    the lock and on what [get_shared_vars] gave for a truthy [shared_vars]. *)
Lemma process_pool_runs_initializer self m args_list sv :
  pool_workers (run_setup self m args_list false sv) =
  repeat {| par_lock := Some HLock;
            init_calls := [[HLock] ++ (if truthy sv then get_shared_vars m sv else [])] |}
         (Z.to_nat (_n_jobs self)).
Proof.
  unfold run_setup, ThreadPool, Pool; simpl.
  destruct (Z.ltb_spec (_n_jobs self) 1).
  - replace (Z.to_nat (_n_jobs self)) with 0%nat by lia. reflexivity.
  - destruct (truthy sv); reflexivity.
Qed.

(** C5, on the thread-based pool: [ThreadPool] is built without
    initializer, so no worker ever runs [init_child], [par_lock] stays
    unset in all of them, and the critical-section gate raises
    [NameError] there instead of taking the lock. *)
Theorem thread_pool_skips_initializer self m args_list shared_vars :
  pool_workers (run_setup self m args_list true shared_vars)
    = repeat {| par_lock := None; init_calls := [] |} (Z.to_nat (_n_jobs self)) /\
  (forall args kwargs mu,
      _enter_crit_sec m {| par_lock := None; init_calls := [] |} args kwargs mu
        = (GRaise (NameError "par_lock"), mu)) /\
  pool_workers (run_setup (__init__ 4 2 1) Examples.doubling [Examples.job 1] true (PInt 1))
    = [fresh_worker; fresh_worker].
Proof.
  split; [|split].
  - unfold run_setup, ThreadPool, Pool; simpl.
    destruct (Z.ltb_spec (_n_jobs self) 1).
    + replace (Z.to_nat (_n_jobs self)) with 0%nat by lia. reflexivity.
    + reflexivity.
  - reflexivity.
  - reflexivity.
Qed.

(** The values Python takes for false in [if shared_vars:]. *)
Lemma falsy_values :
  truthy PNone = false /\ truthy (PBool false) = false /\ truthy (PInt 0) = false /\
  truthy (PStr "") = false /\ truthy (PList []) = false /\ truthy (PTuple []) = false /\
  truthy (PDict []) = false.
Proof. repeat split. Qed.

(** C10: a falsy [shared_vars] (an empty dict, an empty list, 0, None)
    is treated exactly as no [shared_vars]: [run] starts from the same
    state as with [None], [get_shared_vars] is not called, and in a pool
    of processes the initializer of every worker is called once, on the
    lock alone. *)
Theorem falsy_shared_vars_is_none self m args_list use_multithreading shared_vars :
  truthy shared_vars = false ->
  run_setup self m args_list use_multithreading shared_vars
    = run_setup self m args_list use_multithreading PNone /\
  shared_calls (run_setup self m args_list use_multithreading shared_vars) = [] /\
  Forall (fun w => init_calls w = [[HLock]])
         (pool_workers (run_setup self m args_list false shared_vars)).
Proof.
  intros Hf. split; [|split].
  - unfold run_setup. rewrite Hf. reflexivity.
  - unfold run_setup. rewrite Hf. reflexivity.
  - rewrite process_pool_runs_initializer, Hf.
    apply List.Forall_forall. intros w Hw. apply repeat_spec in Hw. subst w. reflexivity.
Qed.

(** An empty dict with a [get_shared_vars] that would return something:
    it is not asked, and the two workers get the lock only. *)
Lemma falsy_shared_vars_is_none_witness :
  truthy (PDict []) = false /\
  run_setup (__init__ 4 2 1) Examples.doubling [Examples.job 1] false (PDict [])
    = run_setup (__init__ 4 2 1) Examples.doubling [Examples.job 1] false PNone /\
  shared_calls (run_setup (__init__ 4 2 1) Examples.doubling [Examples.job 1] false (PDict []))
    = [] /\
  Forall (fun w => init_calls w = [[HLock]])
         (pool_workers (run_setup (__init__ 4 2 1) Examples.doubling [Examples.job 1] false
                          (PDict []))).
Proof.
  split; [reflexivity|].
  apply (falsy_shared_vars_is_none (__init__ 4 2 1) Examples.doubling [Examples.job 1] false
           (PDict [])).
  reflexivity.
Defined.

(** A truthy [shared_vars] does reach [get_shared_vars] and the workers. *)
Example truthy_shared_vars_forwarded :
  let s := run_setup (__init__ 4 2 1) Examples.doubling [Examples.job 1] false (PInt 3) in
  shared_calls s = [PInt 3] /\
  map init_calls (pool_workers s)
    = [[[HLock; HShared (PInt 3)]]; [[HLock; HShared (PInt 3)]]].
Proof. split; reflexivity. Qed.

(** ** The critical-section gate *)

(** C6: with [par_lock] installed and free, the gate takes the lock,
    calls [critical_section] on the given arguments while the lock is
    held, releases the lock whether the call returned or raised, and
    returns the value or propagates the exception of the call. *)
Theorem gate_acquires_calls_releases m w args kwargs mu l :
  par_lock w = Some l ->
  locked mu = false ->
  _enter_crit_sec m w args kwargs mu =
  (match fst (critical_section m args kwargs (guarded mu)) with
   | Return v => GReturn v
   | Raise e => GRaise e
   end,
   {| locked := false;
      guarded := snd (critical_section m args kwargs (guarded mu));
      history := history mu ++ [EvAcquire; EvCall args kwargs; EvRelease] |}).
Proof.
  intros Hl Hfree. unfold _enter_crit_sec. rewrite Hl, Hfree. simpl.
  destruct (critical_section m args kwargs (guarded mu)) as [[v|e] d]; simpl;
    rewrite <- !app_assoc; reflexivity.
Qed.

(** A call that returns and, with the base class, a call that raises:
    the lock is free again after both. *)
Lemma gate_acquires_calls_releases_witness :
  let w := init_child [HLock] fresh_worker in
  let mu := {| locked := false; guarded := []; history := [] |} in
  _enter_crit_sec Examples.doubling w [PInt 1] [] mu =
    (GReturn (PInt 0),
     {| locked := false; guarded := [(PNone, PNone)];
        history := [EvAcquire; EvCall [PInt 1] []; EvRelease] |}) /\
  _enter_crit_sec Base w [PInt 1] [] mu =
    (GRaise (NotImplementedError not_defined_msg),
     {| locked := false; guarded := [];
        history := [EvAcquire; EvCall [PInt 1] []; EvRelease] |}).
Proof.
  intros w mu. split.
  - apply (gate_acquires_calls_releases Examples.doubling w [PInt 1] [] mu HLock);
      reflexivity.
  - apply (gate_acquires_calls_releases Base w [PInt 1] [] mu HLock); reflexivity.
Defined.

(** While another worker holds the lock the gate waits and touches nothing. *)
Lemma gate_waits_when_locked m w args kwargs mu l :
  par_lock w = Some l -> locked mu = true ->
  _enter_crit_sec m w args kwargs mu = (GWait, mu).
Proof. intros Hl Hb. unfold _enter_crit_sec. rewrite Hl, Hb. reflexivity. Qed.

(** ** The extension points of the base class *)

(** C7: as long as [process] is the one of the base class, a worker
    that runs a submitted call gets [NotImplementedError] out of it: the
    call is marked failed with that error (which the error callback then
    reports) and the counter is left alone; as long as
    [critical_section] is the one of the base class, the gate raises
    [NotImplementedError] to the job that entered it. *)
Theorem unimplemented_extension_points_raise (m : Methods) :
  (process m = process Base ->
   (forall args d, snd (process m args d) = Some (NotImplementedError not_defined_msg)) /\
   (forall self s i t,
       st s = Alive -> tasks s !! i = Some t -> tst t = Running ->
       exists s',
         step self m (Worker i) s = Some s' /\
         tasks s' !! i = Some {| targs := targs t;
                                 tst := Failed (NotImplementedError not_defined_msg) |} /\
         queue_value s' = queue_value s /\
         exists s'', step self m (Handler i) s' = Some s'' /\ st s'' = Exited 1)) /\
  (critical_section m = critical_section Base ->
   (forall args kwargs d,
       fst (critical_section m args kwargs d)
         = Raise (NotImplementedError not_defined_msg)) /\
   (forall w l args kwargs mu,
       par_lock w = Some l -> locked mu = false ->
       fst (_enter_crit_sec m w args kwargs mu)
         = GRaise (NotImplementedError not_defined_msg))).
Proof.
  split.
  - intros Hp. split; [intros; rewrite Hp; reflexivity|].
    intros self s i t Hst Hi Ht.
    assert (Hlen : (i < length (tasks s))%nat) by (eapply lookup_lt_Some; eassumption).
    eexists. split; [|split; [|split]].
    + unfold step, worker_step. rewrite Hst, Hi, Ht, Hp. simpl. reflexivity.
    + simpl. unfold set_tst. apply list_lookup_insert_eq. exact Hlen.
    + reflexivity.
    + eexists. split.
      * unfold step, handler_step; simpl. unfold set_tst.
        rewrite Hst, list_lookup_insert_eq by exact Hlen. simpl. reflexivity.
      * reflexivity.
  - intros Hc. split; [intros; rewrite Hc; reflexivity|].
    intros w l args kwargs mu Hl Hfree.
    unfold _enter_crit_sec. rewrite Hl, Hfree, Hc. reflexivity.
Qed.

(** The base class itself, asked to process one job. *)
Lemma unimplemented_extension_points_raise_witness :
  snd (process Base (Examples.job 1 ++ [ARespDict]) [])
    = Some (NotImplementedError not_defined_msg) /\
  (exists s',
      step (__init__ 4 2 1) Base (Worker 0) Examples.one_job_running = Some s' /\
      tasks s' !! 0%nat = Some {| targs := Examples.bad_job ++ [ARespDict];
                                  tst := Failed (NotImplementedError not_defined_msg) |} /\
      queue_value s' = 1 /\
      exists s'', step (__init__ 4 2 1) Base (Handler 0) s' = Some s'' /\ st s'' = Exited 1) /\
  fst (critical_section Base [PInt 1] [] []) = Raise (NotImplementedError not_defined_msg) /\
  fst (_enter_crit_sec Base (init_child [HLock] fresh_worker) [] []
         {| locked := false; guarded := []; history := [] |})
    = GRaise (NotImplementedError not_defined_msg).
Proof.
  destruct (unimplemented_extension_points_raise Base) as [Hp Hc].
  destruct (Hp eq_refl) as [Hp1 Hp2]. destruct (Hc eq_refl) as [Hc1 Hc2].
  split; [apply Hp1 | split; [|split; [apply Hc1 | apply (Hc2 _ HLock); reflexivity]]].
  apply (Hp2 (__init__ 4 2 1) Examples.one_job_running 0%nat
           {| targs := Examples.bad_job ++ [ARespDict]; tst := Running |});
    reflexivity.
Defined.

(** Run under a schedule, the base class ends in [os._exit(1)] on the first job. *)
Example base_class_run_exits :
  option_map (fun s => (st s, logs s, queue_value s))
    (run (__init__ 4 2 1) Base [Examples.job 1] false PNone
       ([Main] ++ Examples.admission ++ [Worker 0; Worker 0; Handler 0])%nat)
  = Some (Exited 1, [LogError (NotImplementedError not_defined_msg)], 1).
Proof. vm_compute. reflexivity. Qed.

(** ** The submission loop *)

(** After a case analysis, what is known of the state before the step. *)
Ltac use_eqs :=
  repeat match goal with
         | E : pc ?s = _ |- context [pc ?s] => rewrite E
         | E : todo ?s = _ |- context [todo ?s] => rewrite E
         | E : st ?s = _ |- context [st ?s] => rewrite E
         end.

Lemma map_targs_set_tst ts i t x :
  ts !! i = Some t -> map targs (set_tst ts i t x) = map targs ts.
Proof.
  unfold set_tst. revert i. induction ts as [|u ts IH]; intros [|i] H; simpl in *;
    try discriminate.
  - inversion H; subst. reflexivity.
  - f_equal. apply IH. exact H.
Qed.

(** What has been submitted, followed by what is still to submit, is the
    input sequence with [resp_dict] appended to each tuple. *)
Lemma step_submissions self m a s s' :
  step self m a s = Some s' ->
  map targs (tasks s') ++ map resp_args (todo s')
    = map targs (tasks s) ++ map resp_args (todo s).
Proof.
  intros H. step_cases H; simpl; use_eqs;
    try reflexivity;
    try (rewrite map_targs_set_tst by eassumption; reflexivity).
  rewrite map_app, <- app_assoc. reflexivity.
Qed.

Lemma step_loop_inv self m a s s' :
  loop_inv s -> step self m a s = Some s' -> loop_inv s'.
Proof.
  intros [HJ HR] H. unfold loop_inv.
  step_cases H; simpl; use_eqs; (split; [try discriminate | try (intros; congruence)]);
    try (intros; reflexivity); try (intros; auto; fail).
  intros r Hr. inversion Hr; subst. auto.
Qed.

Lemma run_loop_inv self m args_list mt sv sched s :
  run self m args_list mt sv sched = Some s -> loop_inv s.
Proof.
  unfold run. apply (exec_invariant self m loop_inv).
  - intros a s1 s2. apply step_loop_inv.
  - split; simpl; [discriminate|].
    intros r. unfold ThreadPool. destruct (negb mt);
      match goal with |- context [Pool ?n ?f ?a] => destruct (Pool n f a) end;
      discriminate.
Qed.

Lemma run_submissions self m args_list mt sv sched s :
  run self m args_list mt sv sched = Some s ->
  map targs (tasks s) ++ map resp_args (todo s) = map resp_args args_list.
Proof.
  unfold run.
  apply (exec_invariant self m
           (fun s => map targs (tasks s) ++ map resp_args (todo s) = map resp_args args_list)).
  - intros a s1 s2 HP Hs. rewrite (step_submissions _ _ _ _ _ Hs). exact HP.
  - reflexivity.
Qed.

(** ** Serving the jobs one after the other *)

Lemma lookup_last (ts : list task) (t : task) : (ts ++ [t]) !! length ts = Some t.
Proof. induction ts as [|u ts IH]; simpl; [reflexivity | exact IH]. Qed.

Lemma set_tst_last ts t x :
  set_tst (ts ++ [t]) (length ts) t x = ts ++ [{| targs := targs t; tst := x |}].
Proof.
  unfold set_tst. induction ts as [|u ts IH]; simpl; [reflexivity|].
  f_equal. exact IH.
Qed.

Lemma busy_app ts us : busy (ts ++ us) = (busy ts + busy us)%nat.
Proof. unfold busy. rewrite List.filter_app, length_app. reflexivity. Qed.

Lemma busy_done ts : forallb is_done ts = true -> busy ts = 0%nat.
Proof.
  unfold busy. induction ts as [|t ts IH]; simpl; [reflexivity|].
  intros H. apply andb_true_iff in H as [Ht Hts].
  unfold is_done in Ht. unfold is_busy. destruct (tst t); try discriminate.
  apply IH. exact Hts.
Qed.

(** One job, from the test of the counter to the end of [_execute]. *)
Lemma serve_one self m s a rest :
  st s = Alive -> pc s = Poll -> todo s = a :: rest -> queue_value s = 0 ->
  0 < _n_jobs self -> forallb is_done (tasks s) = true -> pool_workers s <> [] ->
  snd (process m (resp_args a) (resp_dict s)) = None ->
  exists s',
    exec self m (serve 1 (length (tasks s))) s = Some s' /\
    st s' = Alive /\ pc s' = Poll /\ todo s' = rest /\ queue_value s' = 0 /\
    tasks s' = tasks s ++ [{| targs := resp_args a; tst := Done |}] /\
    invoked s' = invoked s ++ [resp_args a] /\
    pool_workers s' = pool_workers s /\ lock_held s' = lock_held s.
Proof.
  destruct s as [q lk td p ts d iv lg sl ws sc x]; simpl.
  intros -> -> -> -> Hn Hdone Hws Hproc.
  assert (Hlt : (0 <? _n_jobs self) = true) by (apply Z.ltb_lt; exact Hn).
  assert (Hbusy : (busy (ts ++ [{| targs := a ++ [ARespDict]; tst := Queued |}])
                   <? length ws)%nat = true).
  { rewrite busy_app, (busy_done ts Hdone). simpl.
    apply Nat.ltb_lt. destruct ws; [congruence | unfold busy; simpl; lia]. }
  unfold resp_args in *.
  destruct (process m (a ++ [ARespDict]) d) as [d' o] eqn:Hp. simpl in Hproc. subst o.
  eexists. split.
  - unfold step, main_step, worker_step; simpl. rewrite Hlt. simpl.
    rewrite lookup_last. simpl. rewrite Hbusy. simpl.
    rewrite set_tst_last. simpl.
    rewrite lookup_last. simpl. rewrite Hp. simpl.
    rewrite set_tst_last. simpl.
    rewrite lookup_last. simpl.
    rewrite set_tst_last. simpl.
    rewrite lookup_last. simpl.
    rewrite set_tst_last. simpl. reflexivity.
  - simpl. repeat split; reflexivity.
Qed.

Lemma serve_S k i : serve (S k) i = serve 1 i ++ serve k (S i).
Proof. reflexivity. Qed.

Lemma forallb_done_tasks jobs : forallb is_done (map done_task jobs) = true.
Proof. induction jobs as [|a jobs IH]; simpl; [reflexivity | exact IH]. Qed.

(** All the jobs, one after the other, when none of them raises. *)
Lemma serve_all self m jobs :
  0 < _n_jobs self ->
  (forall a d, snd (process m a d) = None) ->
  forall s,
    st s = Alive -> pc s = Poll -> todo s = jobs -> queue_value s = 0 ->
    forallb is_done (tasks s) = true -> pool_workers s <> [] ->
    exists s',
      exec self m (serve (length jobs) (length (tasks s))) s = Some s' /\
      st s' = Alive /\ pc s' = Poll /\ todo s' = [] /\ queue_value s' = 0 /\
      tasks s' = tasks s ++ map done_task jobs /\
      invoked s' = invoked s ++ map resp_args jobs.
Proof.
  intros Hn Hproc. induction jobs as [|a jobs IH]; intros s Hst Hpc Htd Hq Hdone Hws.
  - exists s. simpl. rewrite !app_nil_r. repeat split; assumption.
  - destruct (serve_one self m s a jobs Hst Hpc Htd Hq Hn Hdone Hws (Hproc _ _))
      as (s1 & He1 & Hst1 & Hpc1 & Htd1 & Hq1 & Hts1 & Hiv1 & Hws1 & _).
    destruct (IH s1 Hst1 Hpc1 Htd1 Hq1) as (s2 & He2 & Hst2 & Hpc2 & Htd2 & Hq2 & Hts2 & Hiv2).
    { rewrite Hts1, forallb_app, Hdone. reflexivity. }
    { rewrite Hws1. exact Hws. }
    exists s2. split.
    + change (length (a :: jobs)) with (S (length jobs)).
      rewrite serve_S, exec_app, He1.
      replace (S (length (tasks s))) with (length (tasks s1)); [exact He2|].
      rewrite Hts1, length_app. simpl. lia.
    + repeat split; try assumption.
      * rewrite Hts2, Hts1, <- app_assoc. reflexivity.
      * rewrite Hiv2, Hiv1, <- app_assoc. reflexivity.
Qed.

(** With at least one worker and jobs that do not raise, [run] returns
    under the sequential schedule: every job has been submitted and
    carried out once, in the order of the input, and the counter is back
    to 0. *)
Lemma sequential_run_returns self m args_list mt sv :
  1 <= _n_jobs self ->
  (forall a d, snd (process m a d) = None) ->
  exists s,
    run self m args_list mt sv (sequential (length args_list)) = Some s /\
    st s = Returned (resp_dict s) /\
    tasks s = map done_task args_list /\
    invoked s = map resp_args args_list /\
    queue_value s = 0.
Proof.
  intros Hn Hproc.
  pose (s0 := run_setup self m args_list mt sv).
  assert (Hst0 : st s0 = Alive) by (apply run_setup_alive; exact Hn).
  assert (Hws0 : pool_workers s0 <> []).
  { unfold s0, run_setup, ThreadPool, Pool; simpl.
    destruct (Z.ltb_spec (_n_jobs self) 1) as [Hlt|Hge]; [lia|].
    destruct (Z.to_nat (_n_jobs self)) as [|k] eqn:Hk; [lia|].
    destruct (negb mt); simpl; discriminate. }
  pose (s1 := with_main s0 (queue_value s0) true (todo s0) Poll (tasks s0)).
  destruct (serve_all self m args_list ltac:(lia) Hproc s1)
    as (s2 & He2 & Hst2 & Hpc2 & Htd2 & Hq2 & Hts2 & Hiv2); try reflexivity; try assumption.
  simpl in Hts2, Hiv2.
  eexists. split; [|split; [|split; [|split]]].
  - unfold run, sequential. fold s0.
    assert (He1 : exec self m [Main] s0 = Some s1).
    { simpl. unfold step. rewrite Hst0. reflexivity. }
    change (length (tasks s1)) with 0%nat in He2.
    rewrite exec_app, He1, exec_app, He2. simpl. unfold step, main_step.
    rewrite Hst2, Hpc2, Htd2. simpl. rewrite Hts2, forallb_done_tasks. simpl.
    rewrite Hst2. reflexivity.
  - reflexivity.
  - reflexivity.
  - simpl. exact Hiv2.
  - simpl. exact Hq2.
Qed.

(** ** Each job is run once *)

Lemma started_set_tst_same ts i t x :
  ts !! i = Some t -> started t = started {| targs := targs t; tst := x |} ->
  map targs (List.filter started (set_tst ts i t x)) = map targs (List.filter started ts).
Proof.
  unfold set_tst. revert i.
  induction ts as [|u ts IH]; intros [|i] H He; simpl in *; try discriminate.
  - inversion H; subst. rewrite <- He. destruct (started t); reflexivity.
  - specialize (IH i H He). destruct (started u); simpl; [f_equal|]; exact IH.
Qed.

Lemma started_set_tst_new ts i t x :
  ts !! i = Some t -> started t = false ->
  started {| targs := targs t; tst := x |} = true ->
  Permutation (map targs (List.filter started ts) ++ [targs t])
              (map targs (List.filter started (set_tst ts i t x))).
Proof.
  unfold set_tst. revert i.
  induction ts as [|u ts IH]; intros [|i] H Hf Ht; simpl in *; try discriminate.
  - inversion H; subst. rewrite Hf, Ht. simpl.
    symmetry. apply Permutation_cons_append.
  - specialize (IH i H Hf Ht). destruct (started u); simpl; [|exact IH].
    apply perm_skip. exact IH.
Qed.

Lemma all_done_started ts : forallb is_done ts = true -> List.filter started ts = ts.
Proof.
  induction ts as [|t ts IH]; simpl; [reflexivity|].
  intros H. apply andb_true_iff in H as [Ht Hts].
  unfold is_done in Ht. unfold started at 1. destruct (tst t); try discriminate.
  f_equal. exact (IH Hts).
Qed.

(** The calls of [process] so far are those of the submitted calls that
    a worker has been through, each once. *)
Lemma step_invoked self m a s s' :
  Permutation (invoked s) (map targs (List.filter started (tasks s))) ->
  step self m a s = Some s' ->
  Permutation (invoked s') (map targs (List.filter started (tasks s'))).
Proof.
  intros HP H.
  step_cases H; simpl; try assumption;
    try (rewrite started_set_tst_same; [assumption | eassumption |];
         unfold started; simpl;
         match goal with Ht : tst _ = _ |- _ => rewrite Ht end; reflexivity);
    try (etransitivity; [apply Permutation_app_tail; exact HP|];
         apply started_set_tst_new; [eassumption | |reflexivity];
         unfold started; match goal with Ht : tst _ = _ |- _ => rewrite Ht end; reflexivity).
  rewrite List.filter_app. simpl. rewrite app_nil_r. exact HP.
Qed.

Lemma run_invoked self m args_list mt sv sched s r :
  run self m args_list mt sv sched = Some s -> st s = Returned r ->
  Permutation (invoked s) (map resp_args args_list).
Proof.
  intros Hrun Hr.
  pose proof (run_submissions _ _ _ _ _ _ _ Hrun) as Hsub.
  pose proof (run_loop_inv _ _ _ _ _ _ _ Hrun) as [HJ HR].
  destruct (HR r Hr) as (Hpc & Hdone & _).
  rewrite (HJ Hpc) in Hsub. simpl in Hsub. rewrite app_nil_r in Hsub.
  rewrite <- Hsub, <- (all_done_started _ Hdone).
  revert Hrun. unfold run.
  apply (exec_invariant self m
           (fun s => Permutation (invoked s) (map targs (List.filter started (tasks s))))).
  - intros a s1 s2. apply step_invoked.
  - simpl. constructor.
Qed.

(** ** The empty job sequence *)

Lemma step_idle self m a s s' : idle s -> step self m a s = Some s' -> idle s'.
Proof.
  intros (Htd & Hts & Hiv & Hd & Hpc) H. unfold idle.
  step_cases H; simpl; use_eqs; try congruence;
    try (rewrite Hts in *; discriminate);
    try (destruct Hpc as [Hpc | [Hpc | Hpc]]; discriminate);
    repeat split; try assumption; auto.
Qed.

(** From an idle state the caller's remaining moves end in the return of
    the empty mapping. *)
Lemma idle_returns self m s :
  idle s -> st s = Alive ->
  exists sched s', exec self m sched s = Some s' /\ st s' = Returned [].
Proof.
  intros (Htd & Hts & Hiv & Hd & Hpc) Hst.
  destruct Hpc as [Hpc | [Hpc | Hpc]].
  - exists [Main; Main; Main]. eexists. split.
    + simpl. unfold step, main_step. rewrite Hst, Hpc. simpl.
      rewrite Hst, Htd. simpl. rewrite Hst, Hts. simpl. reflexivity.
    + simpl. rewrite Hd. reflexivity.
  - exists [Main; Main]. eexists. split.
    + simpl. unfold step, main_step. rewrite Hst, Hpc, Htd. simpl.
      rewrite Hst, Hts. simpl. reflexivity.
    + simpl. rewrite Hd. reflexivity.
  - exists [Main]. eexists. split.
    + simpl. unfold step, main_step. rewrite Hst, Hpc, Hts. simpl. reflexivity.
    + simpl. rewrite Hd. reflexivity.
Qed.

(** C9: with an empty job sequence nothing is ever submitted, [process]
    is never called and [resp_dict] stays empty, so a returned mapping is
    the empty one; once the pool is there (a resolved worker limit of at
    least one) the caller's three moves (enter the lock, leave the loop,
    join) make [run] return the empty mapping; and wherever a run
    stands, its remaining moves end in that return. *)
Theorem empty_job_sequence self m use_multithreading shared_vars :
  (forall sched s,
      run self m [] use_multithreading shared_vars sched = Some s ->
      tasks s = [] /\ invoked s = [] /\ resp_dict s = [] /\
      (forall r, st s = Returned r -> r = []) /\
      (st s = Alive ->
       exists sched' s', exec self m sched' s = Some s' /\ st s' = Returned [])) /\
  (1 <= _n_jobs self ->
   exists s,
     run self m [] use_multithreading shared_vars [Main; Main; Main] = Some s /\
     st s = Returned [] /\ tasks s = [] /\ invoked s = []).
Proof.
  split.
  - intros sched s Hrun.
    pose proof (run_loop_inv _ _ _ _ _ _ _ Hrun) as [_ HR].
    assert (Hidle : idle s).
    { revert Hrun. unfold run. apply (exec_invariant self m idle).
      - intros a s1 s2. apply step_idle.
      - repeat split. left. reflexivity. }
    pose proof Hidle as (_ & Hts & Hiv & Hd & _). repeat split; try assumption.
    + intros r Hr. destruct (HR r Hr) as (_ & _ & ->). exact Hd.
    + intros Hst. apply idle_returns; assumption.
  - intros Hn. unfold run, run_setup, ThreadPool, Pool.
    destruct (Z.ltb_spec (_n_jobs self) 1) as [Hlt|Hge]; [lia|].
    destruct (negb use_multithreading); eexists; (split; [reflexivity|]);
      repeat split.
Qed.

(** Two workers and no job, in a pool of processes and in a pool of
    threads. *)
Lemma empty_job_sequence_witness :
  (exists s,
      run (__init__ 4 2 1) Examples.doubling [] false PNone [Main; Main; Main] = Some s /\
      st s = Returned [] /\ tasks s = [] /\ invoked s = []) /\
  (exists s,
      run (__init__ 4 2 1) Examples.doubling [] true (PInt 1) [Main; Main] = Some s /\
      st s = Alive /\
      tasks s = [] /\ invoked s = [] /\ resp_dict s = [] /\
      exists sched' s', exec (__init__ 4 2 1) Examples.doubling sched' s = Some s' /\
                        st s' = Returned []).
Proof.
  split.
  - apply (proj2 (empty_job_sequence (__init__ 4 2 1) Examples.doubling false PNone)).
    simpl. lia.
  - eexists. split; [vm_compute; reflexivity|]. split; [reflexivity|].
    destruct (proj1 (empty_job_sequence (__init__ 4 2 1) Examples.doubling true (PInt 1))
                [Main; Main] _ eq_refl) as (H1 & H2 & H3 & _ & H5).
    repeat split; try assumption. apply H5. reflexivity.
Defined.

(** ** The failure of a job *)

Lemma all_done_lookup ts i (t : task) :
  forallb is_done ts = true -> ts !! i = Some t -> is_done t = true.
Proof.
  revert i. induction ts as [|u ts IH]; intros [|i] H Hi; simpl in *; try discriminate;
    apply andb_true_iff in H as [Hu Hts].
  - inversion Hi; subst. exact Hu.
  - eapply IH; eassumption.
Qed.

Lemma failed_not_done ts i (t : task) e :
  ts !! i = Some t -> tst t = Failed e -> forallb is_done ts = true -> False.
Proof.
  intros Hi Ht Hd. pose proof (all_done_lookup ts i t Hd Hi) as H.
  unfold is_done in H. rewrite Ht in H. discriminate.
Qed.

Lemma set_tst_other ts i j (t u : task) x e :
  ts !! i = Some t -> tst t = Failed e ->
  ts !! j = Some u -> tst u <> Failed e ->
  set_tst ts j u x !! i = Some t.
Proof.
  intros Hi Ht Hj Hu. unfold set_tst.
  rewrite list_lookup_insert_ne; [exact Hi|].
  intros ->. rewrite Hi in Hj. inversion Hj; subst. contradiction.
Qed.

Lemma step_aborting self m i e a s s' :
  aborting i e s -> step self m a s = Some s' -> aborting i e s'.
Proof.
  intros [(t & Hi & Ht) Hst'] H. unfold aborting, failed_at.
  step_cases H; simpl; use_eqs;
    try (split; [exists t; split; assumption | left; reflexivity]);
    try (split; [exists t; split; [|assumption];
                 eapply set_tst_other; try eassumption; congruence
                | left; reflexivity]).
  - split; [|left; reflexivity]. exists t. split; [|assumption].
    apply lookup_app_l_Some. exact Hi.
  - exfalso. eapply failed_not_done; eassumption.
  - split; [exists t; split; assumption|].
    right. split; [reflexivity|]. eexists. apply in_or_app. right. left. reflexivity.
Qed.

(** C1: when [process] raises in a worker, the call is marked failed
    and, whatever happens next, [run] never returns a mapping: as long as
    the process is alive the error callback is due for that call, and it
    logs the error and exits with status 1; and a process that is no
    longer alive has exited with status 1 after logging an error. *)
Theorem job_failure_exits_process self m s i t d e :
  st s = Alive -> tasks s !! i = Some t -> tst t = Running ->
  process m (targs t) (resp_dict s) = (d, Some e) ->
  exists s1,
    step self m (Worker i) s = Some s1 /\
    forall sched s2,
      exec self m sched s1 = Some s2 ->
      (forall r, st s2 <> Returned r) /\
      (st s2 = Alive ->
       exists s3, step self m (Handler i) s2 = Some s3 /\
                  st s3 = Exited 1 /\ logs s3 = logs s2 ++ [LogError e]) /\
      (st s2 <> Alive ->
       st s2 = Exited 1 /\ exists e', In (LogError e') (logs s2)).
Proof.
  intros Hst Hi Ht Hp.
  assert (Hlen : (i < length (tasks s))%nat) by (eapply lookup_lt_Some; eassumption).
  eexists. split.
  { unfold step, worker_step. rewrite Hst, Hi, Ht, Hp. reflexivity. }
  intros sched s2 Hex.
  assert (Hab : aborting i e s2).
  { revert Hex. apply (exec_invariant self m (aborting i e)).
    - intros a s3 s4. apply step_aborting.
    - split; [|left; exact Hst]. eexists. split.
      + simpl. unfold set_tst. apply list_lookup_insert_eq. exact Hlen.
      + reflexivity. }
  destruct Hab as [(u & Hu & Hut) Hs2]. split; [|split].
  - intros r Hr. destruct Hs2 as [Ha | [Hx _]]; congruence.
  - intros Ha. eexists. split.
    + unfold step, handler_step. rewrite Ha, Hu, Hut. reflexivity.
    + split; reflexivity.
  - intros Hna. destruct Hs2 as [Ha | Hx]; [contradiction | exact Hx].
Qed.

Example one_job_running_reached :
  run (__init__ 4 2 1) Examples.doubling [Examples.bad_job] false PNone
    ([Main] ++ Examples.admission ++ [Worker 0])%nat
  = Some Examples.one_job_running.
Proof. vm_compute. reflexivity. Qed.

(** The failing job of [one_job_running]. *)
Lemma job_failure_exits_process_witness :
  exists s1,
    step (__init__ 4 2 1) Examples.doubling (Worker 0) Examples.one_job_running = Some s1 /\
    forall sched s2,
      exec (__init__ 4 2 1) Examples.doubling sched s1 = Some s2 ->
      (forall r, st s2 <> Returned r) /\
      (st s2 = Alive ->
       exists s3, step (__init__ 4 2 1) Examples.doubling (Handler 0) s2 = Some s3 /\
                  st s3 = Exited 1 /\ logs s3 = logs s2 ++ [LogError (JobError PNone)]) /\
      (st s2 <> Alive ->
       st s2 = Exited 1 /\ exists e', In (LogError e') (logs s2)).
Proof.
  apply (job_failure_exits_process (__init__ 4 2 1) Examples.doubling
           Examples.one_job_running 0
           {| targs := Examples.bad_job ++ [ARespDict]; tst := Running |}
           [] (JobError PNone)); reflexivity.
Defined.

(** Three workers, three jobs, the second one raises: whether the third
    job has already stored its result or not, the process exits with
    status 1 once the error callback runs. *)
Example failing_job_among_three :
  let jobs := [Examples.job 1; Examples.bad_job; Examples.job 3] in
  option_map (fun s => (st s, logs s))
    (run (__init__ 4 3 1) Examples.doubling jobs false PNone
       ([Main] ++ Examples.admission ++ Examples.admission ++ Examples.admission
        ++ Examples.carry 2 ++ [Worker 1; Worker 1; Handler 1])%nat)
  = Some (Exited 1, [LogError (JobError PNone)]) /\
  run (__init__ 4 3 1) Examples.doubling jobs false PNone
    ([Main] ++ Examples.admission ++ Examples.admission ++ Examples.admission
     ++ Examples.carry 2 ++ [Worker 1; Worker 1; Handler 1; Main])%nat
  = None.
Proof. split; vm_compute; reflexivity. Qed.

(** ** The worker limit *)

Lemma count_set_tst (p : task -> bool) ts i t x :
  ts !! i = Some t ->
  (length (List.filter p (set_tst ts i t x)) + (if p t then 1 else 0)
   = length (List.filter p ts) + (if p {| targs := targs t; tst := x |} then 1 else 0))%nat.
Proof.
  unfold set_tst. revert i.
  induction ts as [|u ts IH]; intros [|i] H; simpl in *; try discriminate.
  - inversion H; subst.
    destruct (p t); destruct (p {| targs := targs t; tst := x |}); simpl; lia.
  - specialize (IH i H). destruct (p u); simpl; lia.
Qed.

Lemma busy_set_tst ts i t x :
  ts !! i = Some t ->
  (busy (set_tst ts i t x) + (if is_busy t then 1 else 0)
   = busy ts + (if is_busy {| targs := targs t; tst := x |} then 1 else 0))%nat.
Proof. apply (count_set_tst is_busy). Qed.

(** No more calls are inside [_execute] than the pool has workers. *)
Lemma step_busy self m a s s' :
  (busy (tasks s) <= length (pool_workers s))%nat ->
  step self m a s = Some s' ->
  (busy (tasks s') <= length (pool_workers s'))%nat.
Proof.
  intros Hb H.
  step_cases H; simpl; try assumption;
    try (match goal with
         | Hi : tasks s !! ?i = Some ?t, Ht : tst ?t = _ |- context [set_tst _ ?i ?t ?x] =>
             pose proof (busy_set_tst (tasks s) i t x Hi) as Hset;
             unfold is_busy in Hset; simpl in Hset; rewrite Ht in Hset
         end;
         try match goal with
             | Hg : (_ <? _)%nat = true |- _ => apply Nat.ltb_lt in Hg
             end;
         lia).
  rewrite busy_app. unfold busy at 2. simpl. lia.
Qed.

Lemma run_setup_pool_size self m args_list mt sv :
  (length (pool_workers (run_setup self m args_list mt sv)) <= Z.to_nat (_n_jobs self))%nat.
Proof.
  unfold run_setup, ThreadPool, Pool; simpl.
  destruct (Z.ltb_spec (_n_jobs self) 1) as [Hlt|Hge].
  - destruct (negb mt); simpl; lia.
  - destruct (negb mt); simpl; rewrite repeat_length; lia.
Qed.

Lemma run_busy self m args_list mt sv sched s :
  run self m args_list mt sv sched = Some s ->
  (busy (tasks s) <= Z.to_nat (_n_jobs self))%nat.
Proof.
  intros Hrun.
  pose proof (run_setup_pool_size self m args_list mt sv) as Hsize.
  assert (Hinv : (busy (tasks s) <= length (pool_workers s))%nat
                 /\ pool_workers s = pool_workers (run_setup self m args_list mt sv)).
  { revert Hrun. unfold run.
    apply (exec_invariant self m
             (fun s => (busy (tasks s) <= length (pool_workers s))%nat
                       /\ pool_workers s = pool_workers (run_setup self m args_list mt sv))).
    - intros a s1 s2 [Hb Hw] Hs. split; [eapply step_busy; eassumption|].
      rewrite (step_pool_workers _ _ _ _ _ Hs). exact Hw.
    - split; [unfold busy; simpl; lia | reflexivity]. }
  destruct Hinv as [Hb Hw]. rewrite Hw in Hb. lia.
Qed.

(** A dispatcher whose resolved limit is below one never gets past the
    construction of the pool. *)
Lemma run_without_pool self m args_list mt sv sched s :
  _n_jobs self < 1 ->
  run self m args_list mt sv sched = Some s ->
  s = run_setup self m args_list mt sv /\
  st s = Raised (ValueError "Number of processes must be at least 1") /\
  tasks s = [] /\ invoked s = [].
Proof.
  intros Hn Hrun.
  destruct (run_setup_raises self m args_list mt sv Hn) as [Hst _].
  assert (Hs : s = run_setup self m args_list mt sv).
  { eapply exec_not_alive; [|exact Hrun]. rewrite Hst. discriminate. }
  subst s. repeat split. exact Hst.
Qed.

(** C3, as the code has it: a negative [n_jobs] (the default is -1) is
    resolved to the number of cores [N] of the host, at most [N] calls
    are inside [_execute] at any time of a run, and jobs that do not
    raise are submitted and carried out; a non-negative [n_jobs] is kept
    as it is, so that [n_jobs = 0] gives a limit of 0, with which the
    pool cannot be built: [run] raises [ValueError] and no job is
    submitted. *)
Theorem worker_limit_resolution (N n_jobs waiting_time : Z) :
  1 <= N ->
  (n_jobs < 0 ->
   _n_jobs (__init__ N n_jobs waiting_time) = N /\
   (forall m args_list mt sv sched s,
       run (__init__ N n_jobs waiting_time) m args_list mt sv sched = Some s ->
       Z.of_nat (busy (tasks s)) <= N) /\
   (forall m args_list mt sv,
       (forall a d, snd (process m a d) = None) ->
       exists s,
         run (__init__ N n_jobs waiting_time) m args_list mt sv
           (sequential (length args_list)) = Some s /\
         st s = Returned (resp_dict s) /\
         invoked s = map (fun args => args ++ [ARespDict]) args_list)) /\
  (0 <= n_jobs -> _n_jobs (__init__ N n_jobs waiting_time) = n_jobs) /\
  (n_jobs = 0 ->
   forall m args_list mt sv sched s,
     run (__init__ N n_jobs waiting_time) m args_list mt sv sched = Some s ->
     st s = Raised (ValueError "Number of processes must be at least 1") /\
     tasks s = [] /\ invoked s = []).
Proof.
  intros HN. split; [|split].
  - intros Hneg.
    assert (Hres : _n_jobs (__init__ N n_jobs waiting_time) = N).
    { rewrite n_jobs_resolved. destruct (Z.ltb_spec n_jobs 0); lia. }
    split; [exact Hres|]. split.
    + intros m args_list mt sv sched s Hrun.
      apply run_busy in Hrun. rewrite Hres in Hrun. lia.
    + intros m args_list mt sv Hproc.
      destruct (sequential_run_returns (__init__ N n_jobs waiting_time) m args_list mt sv)
        as (s & Hrun & Hst & _ & Hiv & _); [rewrite Hres; exact HN | exact Hproc |].
      exists s. repeat split; assumption.
  - intros Hpos. rewrite n_jobs_resolved. destruct (Z.ltb_spec n_jobs 0); lia.
  - intros -> m args_list mt sv sched s Hrun.
    eapply run_without_pool in Hrun; [|simpl; lia].
    destruct Hrun as (_ & H1 & H2 & H3). repeat split; assumption.
Qed.

(** The default [n_jobs = -1] on a host with 8 cores, with three jobs;
    [n_jobs = 3]; and [n_jobs = 0] on the same host. *)
Lemma worker_limit_resolution_witness :
  _n_jobs (__init__ 8 (-1) 1) = 8 /\
  (exists s,
      run (__init__ 8 (-1) 1) Examples.doubling
        [Examples.job 1; Examples.job 2; Examples.job 3] false PNone
        ([Main] ++ Examples.admission ++ Examples.admission ++ [Worker 0; Worker 1])%nat = Some s /\
      busy (tasks s) = 2%nat /\ Z.of_nat (busy (tasks s)) <= 8) /\
  (exists s,
      run (__init__ 8 (-1) 1) Examples.tally [Examples.job 1; Examples.job 2] false PNone
        (sequential 2) = Some s /\
      st s = Returned (resp_dict s) /\
      invoked s = [Examples.job 1 ++ [ARespDict]; Examples.job 2 ++ [ARespDict]]) /\
  _n_jobs (__init__ 8 3 1) = 3 /\
  st (run_setup (__init__ 8 0 1) Examples.doubling [Examples.job 1] false PNone)
    = Raised (ValueError "Number of processes must be at least 1").
Proof.
  assert (H8 : 1 <= 8) by lia.
  destruct (worker_limit_resolution 8 (-1) 1 H8) as (Hneg & _ & _).
  destruct (Hneg ltac:(lia)) as (Hres & Hbusy & Hseq).
  split; [exact Hres|]. split; [|split; [|split]].
  - eexists. split; [vm_compute; reflexivity|]. split; [reflexivity|].
    eapply (Hbusy Examples.doubling [Examples.job 1; Examples.job 2; Examples.job 3]
              false PNone ([Main] ++ Examples.admission ++ Examples.admission ++ [Worker 0; Worker 1])%nat).
    vm_compute. reflexivity.
  - apply (Hseq Examples.tally [Examples.job 1; Examples.job 2] false PNone).
    intros a d. reflexivity.
  - apply (proj1 (proj2 (worker_limit_resolution 8 3 1 H8))). lia.
  - apply (proj2 (proj2 (worker_limit_resolution 8 0 1 H8)) eq_refl
             Examples.doubling [Examples.job 1] false PNone []).
    reflexivity.
Defined.

(** C3, as stated, fails on a host with 8 cores: with [n_jobs = 0] the
    limit is 0 and not 8, [run] raises [ValueError] when it builds the
    pool, and the caller does not make a single move: no job is submitted. *)
Lemma zero_worker_limit_is_not_all_cores :
  _n_jobs (__init__ 8 0 1) = 0 /\
  _n_jobs (__init__ 8 0 1) <> 8 /\
  st (run_setup (__init__ 8 0 1) Examples.doubling [Examples.job 1] false PNone)
    = Raised (ValueError "Number of processes must be at least 1") /\
  run (__init__ 8 0 1) Examples.doubling [Examples.job 1] false PNone [Main] = None /\
  run (__init__ 8 0 1) Examples.doubling [Examples.job 1] true PNone [Main] = None.
Proof. repeat split; try reflexivity. vm_compute. discriminate. Qed.

(** ** The admission counter *)

(** C2, on two workers: [self._queue.value += 1] and
    [self._queue.value -= 1] each read the counter and then store it, and
    other moves come in between.  With two jobs whose workers both read
    2 before storing, [run] returns with the counter at 1 and not 0; with
    four jobs and a worker that reads the counter between the caller's
    read and store, [run] returns with the counter at -1, outside the
    range from 0 to the limit. *)
Theorem counter_updates_are_lost :
  (exists s,
      run (__init__ 4 2 1) Examples.doubling [Examples.job 1; Examples.job 2] false PNone
        Examples.lost_decrement = Some s /\
      st s = Returned [(PInt 2, PInt 4); (PInt 1, PInt 2)] /\
      map tst (tasks s) = [Done; Done] /\
      queue_value s = 1) /\
  (exists s,
      run (__init__ 4 2 1) Examples.doubling
        [Examples.job 1; Examples.job 2; Examples.job 3; Examples.job 4] false PNone
        Examples.lost_increment = Some s /\
      st s = Returned [(PInt 4, PInt 8); (PInt 3, PInt 6); (PInt 2, PInt 4); (PInt 1, PInt 2)] /\
      map tst (tasks s) = [Done; Done; Done; Done] /\
      queue_value s = -1).
Proof.
  split; eexists; (split; [vm_compute; reflexivity|]); repeat split.
Qed.

Lemma lookup_set_tst ts i j (t u : task) x :
  ts !! i = Some t -> set_tst ts i t x !! j = Some u ->
  (j = i /\ u = {| targs := targs t; tst := x |}) \/ (j <> i /\ ts !! j = Some u).
Proof.
  intros Hi Hj. unfold set_tst in Hj. destruct (decide (i = j)) as [->|Hne].
  - rewrite list_lookup_insert_eq in Hj by (eapply lookup_lt_Some; eassumption).
    inversion Hj. left. split; reflexivity.
  - rewrite list_lookup_insert_ne in Hj by exact Hne. right. split; [congruence | exact Hj].
Qed.

Lemma step_bounded self m a s s' :
  bounded (_n_jobs self) s -> step self m a s = Some s' -> bounded (_n_jobs self) s'.
Proof.
  intros (Hq & Hr & Hw & Ht) H. unfold bounded.
  step_cases H; simpl; use_eqs;
    repeat match goal with
           | Hc : (_ <? _) = true |- _ => apply Z.ltb_lt in Hc
           end;
    (split; [|split; [|split]]);
    try discriminate; try lia; try assumption;
    try (intros; congruence);
    try (intros tmp' Htmp; inversion Htmp; subst; auto; lia);
    try (specialize (Hw _ eq_refl); lia);
    try (intros j u tmp' Hj Hu;
         match goal with
         | Hi : tasks s !! _ = Some _ |- _ =>
             destruct (lookup_set_tst _ _ _ _ _ _ Hi Hj) as [[-> ->] | [_ Hj']]
         end;
         [simpl in Hu; try discriminate; inversion Hu; subst; lia
         | eapply Ht; eassumption]).
  - intros j u tmp' Hj Hu. apply lookup_app_Some in Hj as [Hj | [_ Hj]].
    + eapply Ht; eassumption.
    + destruct (j - length (tasks s))%nat; simpl in Hj; [|discriminate].
      inversion Hj; subst. discriminate.
  - match goal with
    | Hi : tasks s !! _ = Some _, Hd : tst _ = DecWrite _ |- _ =>
        pose proof (Ht _ _ _ Hi Hd)
    end. lia.
  - match goal with
    | Hi : tasks s !! _ = Some _, Hd : tst _ = DecWrite _ |- _ =>
        pose proof (Ht _ _ _ Hi Hd)
    end. lia.
Qed.

(** Whatever the interleaving, the counter is never above the limit. *)
Lemma counter_never_exceeds_limit self m args_list mt sv sched s :
  run self m args_list mt sv sched = Some s ->
  1 <= _n_jobs self ->
  queue_value s <= _n_jobs self.
Proof.
  intros Hrun Hge.
  assert (Hb : bounded (_n_jobs self) s).
  { revert Hrun. unfold run. apply (exec_invariant self m (bounded (_n_jobs self))).
    - intros a s1 s2. apply step_bounded.
    - unfold bounded; simpl. repeat split; try discriminate; try lia. }
  destruct Hb as [Hq _]. exact Hq.
Qed.

(** *** Without interleaving between a read and its store *)


Lemma undone_done ts : forallb is_done ts = true -> undone ts = 0%nat.
Proof.
  unfold undone. induction ts as [|t ts IH]; simpl; [reflexivity|].
  intros H. apply andb_true_iff in H as [Ht Hts]. rewrite Ht. simpl. apply IH. exact Hts.
Qed.

(** An atomic schedule is a schedule. *)
Lemma atomic_exec_exec self m sched s s' :
  atomic_exec self m sched s = Some s' -> exists sched', exec self m sched' s = Some s'.
Proof.
  revert s. induction sched as [|a sched IH]; intros s H; simpl in H.
  - exists []. exact H.
  - unfold atomic_step in H. destruct (step self m a s) as [s1|] eqn:H1; [|discriminate].
    destruct (in_update a s1).
    + destruct (step self m a s1) as [s2|] eqn:H2; [|discriminate].
      destruct (IH _ H) as [sched' Hs]. exists (a :: a :: sched'). simpl.
      rewrite H1, H2. exact Hs.
    + destruct (IH _ H) as [sched' Hs]. exists (a :: sched'). simpl. rewrite H1. exact Hs.
Qed.

Lemma undone_set_tst ts i t x :
  ts !! i = Some t ->
  (undone (set_tst ts i t x) + (if negb (is_done t) then 1 else 0)
   = undone ts + (if negb (is_done {| targs := targs t; tst := x |}) then 1 else 0))%nat.
Proof. apply (count_set_tst (fun t => negb (is_done t))). Qed.

Lemma undone_app ts us : undone (ts ++ us) = (undone ts + undone us)%nat.
Proof. unfold undone. rewrite List.filter_app, length_app. reflexivity. Qed.

Lemma atomic_step_counted self m a s s' :
  counted (_n_jobs self) s -> atomic_step self m a s = Some s' -> counted (_n_jobs self) s'.
Proof.
  intros (Hw & Hd & Hq & Hle & Hr) H. unfold atomic_step in H.
  destruct (step self m a s) as [s1|] eqn:H1; [|discriminate].
  step_cases H1;
    unfold in_update in H; simpl in H; unfold set_tst in H;
    try rewrite list_lookup_insert_eq in H by (eapply lookup_lt_Some; eassumption);
    simpl in H;
    repeat match type of H with
           | context [pc s] => match goal with E : pc s = _ |- _ => rewrite E in H end
           end;
    try (unfold step, main_step, worker_step in H; simpl in H;
         repeat match type of H with
                | context [st s] => rewrite Hst in H
                | context [todo s] =>
                    match goal with E : todo s = _ |- _ => rewrite E in H end
                end;
         try rewrite list_lookup_insert_eq in H by (eapply lookup_lt_Some; eassumption);
         simpl in H);
    inversion H; subst; clear H; unfold counted; simpl; use_eqs;
    try (exfalso; eapply Hw; reflexivity);
    try (exfalso; eapply Hd; eassumption);
    try (pose proof (Hr eq_refl));
    unfold set_tst; simpl; rewrite ?list_insert_insert_eq;
    repeat match goal with
           | |- context [<[?i := {| targs := targs ?t; tst := ?x |}]> ?ts] =>
               change (<[i := {| targs := targs t; tst := x |}]> ts) with (set_tst ts i t x)
           | Hc : (_ <? _) = true |- _ => apply Z.ltb_lt in Hc
           end;
    try match goal with
        | Hi : tasks s !! ?i = Some ?t, Ht : tst ?t = _ |- context [set_tst _ ?i ?t ?x] =>
            pose proof (undone_set_tst (tasks s) i t x Hi) as Hset;
            unfold is_done in Hset; simpl in Hset; rewrite Ht in Hset; simpl in Hset
        end;
    (split; [|split; [|split; [|split]]]);
    try discriminate; try assumption; try lia;
    try (intros; discriminate);
    try (intros j u tmp' Hj;
         match goal with
         | Hi : tasks s !! _ = Some _ |- _ =>
             destruct (lookup_set_tst _ _ _ _ _ _ Hi Hj) as [[-> ->] | [_ Hj']]
         end;
         [simpl; discriminate | eapply Hd; eassumption]);
    try (intros Hpc; specialize (Hr Hpc); lia).
  - intros j u tmp' Hj Hu. apply lookup_app_Some in Hj as [Hj | [_ Hj]].
    + eapply Hd; eassumption.
    + destruct (j - length (tasks s))%nat; simpl in Hj; [|discriminate].
      inversion Hj; subst. discriminate.
  - rewrite undone_app. unfold undone at 2. simpl. lia.
Qed.

Lemma atomic_exec_invariant self m (P : state -> Prop) :
  (forall a s s', P s -> atomic_step self m a s = Some s' -> P s') ->
  forall sched s s', P s -> atomic_exec self m sched s = Some s' -> P s'.
Proof.
  intros Hstep sched. induction sched as [|a sched IH]; intros s s' HP Hex; simpl in Hex.
  - congruence.
  - destruct (atomic_step self m a s) as [s1|] eqn:Hs; [|discriminate].
    eapply IH; [eapply Hstep; eassumption | exact Hex].
Qed.

(** Were every [+= 1] and [-= 1] on the counter one move, the counter
    would be the number of calls submitted and not finished (plus one
    between the caller's increment and its [apply_async]), between 0 and
    the limit, and 0 when [run] returns. *)
Lemma atomic_updates_keep_counter self m args_list mt sv sched s :
  1 <= _n_jobs self ->
  atomic_exec self m sched (run_setup self m args_list mt sv) = Some s ->
  0 <= queue_value s <= _n_jobs self /\
  queue_value s = Z.of_nat (undone (tasks s)) + (match pc s with Submit => 1 | _ => 0 end) /\
  (forall r, st s = Returned r -> queue_value s = 0).
Proof.
  intros Hn Hex.
  assert (Hc : counted (_n_jobs self) s).
  { revert Hex. apply (atomic_exec_invariant self m (counted (_n_jobs self))).
    - intros a s1 s2. apply atomic_step_counted.
    - unfold counted; simpl. repeat split; try discriminate; try lia. }
  destruct Hc as (_ & _ & Hq & Hle & _).
  split; [|split].
  - split; [|exact Hle]. rewrite Hq. destruct (pc s); lia.
  - exact Hq.
  - intros r Hr. destruct (atomic_exec_exec _ _ _ _ _ Hex) as [sched' Hex'].
    destruct (run_loop_inv self m args_list mt sv sched' s Hex') as [_ HR].
    destruct (HR r Hr) as (Hpc & Hdone & _).
    rewrite Hq, Hpc, (undone_done _ Hdone). reflexivity.
Qed.

(** Two jobs side by side on two workers, each update of the counter in
    one move: the counter is back to 0 when [run] returns. *)
Example atomic_side_by_side :
  option_map (fun s => (st s, queue_value s))
    (atomic_exec (__init__ 4 2 1) Examples.doubling
       ([Main] ++ [Main; Main; Main] ++ [Main; Main; Main]
        ++ [Worker 0; Worker 1; Worker 0; Worker 1; Worker 0; Worker 1]
        ++ [Main; Main])%nat
       (run_setup (__init__ 4 2 1) Examples.doubling [Examples.job 1; Examples.job 2]
          false PNone))
  = Some (Returned [(PInt 2, PInt 4); (PInt 1, PInt 2)], 0).
Proof. vm_compute. reflexivity. Qed.

(** ** A run can always be completed *)

Lemma all_done_set_tst ts i t x :
  ts !! i = Some t -> forallb is_done (set_tst ts i t x) = true ->
  x = Done.
Proof.
  intros Hi Hd.
  assert (Hl : set_tst ts i t x !! i = Some {| targs := targs t; tst := x |}).
  { unfold set_tst. apply list_lookup_insert_eq. eapply lookup_lt_Some. eassumption. }
  pose proof (all_done_lookup _ _ _ Hd Hl) as Hx.
  unfold is_done in Hx. simpl in Hx. destruct x; try discriminate. reflexivity.
Qed.

Lemma step_sound self m a s s' :
  1 <= _n_jobs self ->
  (forall a d, snd (process m a d) = None) ->
  sound (_n_jobs self) s -> step self m a s = Some s' -> sound (_n_jobs self) s'.
Proof.
  intros Hn Hproc (Hb & Hws & Hnf & He & Hp & Hj & Ht & Hst') H.
  pose proof (step_bounded _ _ _ _ _ Hb H) as Hb'.
  pose proof (step_pool_workers _ _ _ _ _ H) as Hws'.
  unfold sound. split; [exact Hb'|]. split; [rewrite Hws'; exact Hws|].
  clear Hb' Hws'. destruct Hb as (_ & _ & _ & Hbt).
  step_cases H; simpl; use_eqs;
    try (match goal with
         | Hq : process m ?a ?d = (_, Some _) |- _ =>
             pose proof (Hproc a d) as Hc; rewrite Hq in Hc; discriminate
         end);
    try (exfalso; eapply Hnf; eassumption);
    (split; [|split; [|split; [|split; [|split]]]]);
    try discriminate; try assumption;
    try (intros; discriminate);
    try (left; reflexivity);
    try (right; eexists; reflexivity);
    try (intros; auto; fail);
    try (intros Hpc; destruct (He Hpc) as [Hts _];
         match goal with Hi : tasks s !! _ = Some _ |- _ => rewrite Hts in Hi; discriminate end);
    try (intros Hpc Hd;
         match goal with
         | Hi : tasks s !! _ = Some _ |- _ =>
             pose proof (all_done_set_tst _ _ _ _ Hi Hd); discriminate
         end);
    try (intros j u e' Hj' Hu;
         match goal with
         | Hi : tasks s !! _ = Some _ |- _ =>
             destruct (lookup_set_tst _ _ _ _ _ _ Hi Hj') as [[-> ->] | [_ Hj'']]
         end;
         [simpl in Hu; discriminate | eapply Hnf; eassumption]).
  - intros _ _. destruct (He eq_refl) as [_ Hq]. lia.
  - intros j u e' Hj' Hu. apply lookup_app_Some in Hj' as [Hj' | [_ Hj']].
    + eapply Hnf; eassumption.
    + destruct (j - length (tasks s))%nat; simpl in Hj'; [|discriminate].
      inversion Hj'; subst. discriminate.
  - intros _ Hd. rewrite forallb_app in Hd. simpl in Hd.
    rewrite andb_false_r in Hd. discriminate.
  - intros _ _.
    match goal with
    | Hi : tasks s !! _ = Some _, Hd : tst _ = DecWrite _ |- _ =>
        pose proof (Hbt _ _ _ Hi Hd)
    end. lia.
Qed.

Lemma run_sound self m args_list mt sv sched s :
  1 <= _n_jobs self ->
  (forall a d, snd (process m a d) = None) ->
  run self m args_list mt sv sched = Some s -> sound (_n_jobs self) s.
Proof.
  intros Hn Hproc. unfold run. apply (exec_invariant self m (sound (_n_jobs self))).
  - intros a s1 s2. apply step_sound; assumption.
  - unfold sound, bounded, run_setup, ThreadPool, Pool; simpl.
    destruct (Z.ltb_spec (_n_jobs self) 1) as [Hlt|Hge]; [lia|].
    destruct (Z.to_nat (_n_jobs self)) as [|k] eqn:Hk; [lia|].
    repeat split; try discriminate; try lia; auto;
      try (destruct (negb mt); discriminate);
      try (destruct (negb mt); left; reflexivity).
Qed.

Lemma find_task (p : task -> bool) ts :
  existsb p ts = true -> exists i t, ts !! i = Some t /\ p t = true.
Proof.
  induction ts as [|u ts IH]; simpl; [discriminate|].
  intros H. apply orb_true_iff in H as [Hu | Hts].
  - exists 0%nat, u. split; [reflexivity | exact Hu].
  - destruct (IH Hts) as (i & t & Hi & Ht). exists (S i), t. split; assumption.
Qed.

Lemma no_busy ts : existsb is_busy ts = false -> busy ts = 0%nat.
Proof.
  unfold busy. induction ts as [|u ts IH]; simpl; [reflexivity|].
  intros H. apply orb_false_iff in H as [Hu Hts]. rewrite Hu. apply IH. exact Hts.
Qed.

Lemma all_settled ts :
  existsb is_busy ts = false -> existsb is_queued ts = false ->
  (forall i t e, ts !! i = Some t -> tst t <> Failed e) ->
  forallb is_done ts = true.
Proof.
  induction ts as [|u ts IH]; simpl; [reflexivity|].
  intros Hb Hq Hnf.
  apply orb_false_iff in Hb as [Hbu Hbts]. apply orb_false_iff in Hq as [Hqu Hqts].
  apply andb_true_iff. split.
  - specialize (Hnf 0%nat u). simpl in Hnf.
    unfold is_busy in Hbu. unfold is_queued in Hqu. unfold is_done.
    destruct (tst u) eqn:Hu; try discriminate; try reflexivity.
    exfalso. eapply Hnf; reflexivity.
  - apply IH; try assumption. intros i t e Hi. apply (Hnf (S i) t e Hi).
Qed.

Lemma work_left_set_tst ts i t x :
  ts !! i = Some t ->
  (work_left (set_tst ts i t x) + moves_left t
   = work_left ts + moves_left {| targs := targs t; tst := x |})%nat.
Proof.
  unfold set_tst. revert i.
  induction ts as [|u ts IH]; intros [|i] H; simpl in *; try discriminate.
  - inversion H; subst. lia.
  - specialize (IH i H). lia.
Qed.

Lemma work_left_app ts us : work_left (ts ++ us) = (work_left ts + work_left us)%nat.
Proof. induction ts as [|u ts IH]; simpl; [reflexivity | rewrite IH; lia]. Qed.

(** In a state of such a run that is still alive some actor can move,
    and its move brings the return of [run] nearer: a worker inside
    [_execute] first, else a worker that takes a queued call, else the
    caller, whom the counter lets through once every call is done. *)
Lemma progress self m s :
  1 <= _n_jobs self ->
  (forall a d, snd (process m a d) = None) ->
  sound (_n_jobs self) s -> st s = Alive ->
  exists a s', step self m a s = Some s' /\ (moves_to_return s' < moves_to_return s)%nat.
Proof.
  intros Hn Hproc (Hb & Hws & Hnf & He & Hp & Hj & Ht & _) Hst.
  unfold moves_to_return. rewrite Hst.
  destruct (existsb is_busy (tasks s)) eqn:Hbusy.
  - destruct (find_task _ _ Hbusy) as (i & t & Hi & Hbt).
    pose proof (work_left_set_tst (tasks s) i t) as Hw.
    exists (Worker i). unfold step, worker_step. rewrite Hst, Hi.
    unfold is_busy in Hbt. unfold moves_left in Hw.
    destruct (tst t) eqn:Htst; try discriminate.
    + destruct (process m (targs t) (resp_dict s)) as [d o] eqn:Hpr.
      pose proof (Hproc (targs t) (resp_dict s)) as Ho. rewrite Hpr in Ho. simpl in Ho.
      subst o. eexists. split; [reflexivity|]. simpl. rewrite Hst.
      specialize (Hw DecRead Hi). simpl in Hw. lia.
    + eexists. split; [reflexivity|]. simpl. rewrite Hst.
      specialize (Hw (DecWrite (queue_value s)) Hi). simpl in Hw. lia.
    + eexists. split; [reflexivity|]. simpl. rewrite Hst.
      specialize (Hw Done Hi). simpl in Hw. lia.
  - destruct (existsb is_queued (tasks s)) eqn:Hqueued.
    + destruct (find_task _ _ Hqueued) as (i & t & Hi & Hqt).
      pose proof (work_left_set_tst (tasks s) i t Running Hi) as Hw.
      exists (Worker i). unfold step, worker_step. rewrite Hst, Hi.
      unfold is_queued in Hqt. unfold moves_left in Hw. simpl in Hw.
      destruct (tst t) eqn:Htst; try discriminate.
      rewrite (no_busy _ Hbusy).
      destruct (pool_workers s) as [|w ws] eqn:Hpw; [congruence|]. simpl.
      eexists. split; [reflexivity|]. simpl. rewrite Hst. lia.
    + pose proof (all_settled _ Hbusy Hqueued Hnf) as Hdone.
      exists Main. unfold step, main_step. rewrite Hst.
      destruct (pc s) eqn:Hpc; destruct (todo s) as [|a rest] eqn:Htd;
        try (destruct (Ht eq_refl) as [Hx | [Hx | Hx]]; discriminate);
        try (eexists; split; [reflexivity|]; simpl; rewrite ?Hst, ?Hpc; simpl; lia).
      * assert (Hlt : (queue_value s <? _n_jobs self) = true)
          by (apply Z.ltb_lt; exact (Hp eq_refl Hdone)).
        rewrite Hlt. eexists. split; [reflexivity|]. simpl. rewrite Hst. simpl. lia.
      * eexists. split; [reflexivity|]. simpl. rewrite Hst, work_left_app. simpl. lia.
      * rewrite Hdone. eexists. split; [reflexivity|]. simpl. lia.
      * rewrite Hdone. eexists. split; [reflexivity|]. simpl. lia.
Qed.

(** From every state of such a run that is alive, some schedule leads to
    the return of [run]. *)
Lemma can_complete self m :
  1 <= _n_jobs self ->
  (forall a d, snd (process m a d) = None) ->
  forall k s,
    sound (_n_jobs self) s -> st s = Alive -> (moves_to_return s <= k)%nat ->
    exists sched s' r, exec self m sched s = Some s' /\ st s' = Returned r.
Proof.
  intros Hn Hproc. induction k as [|k IH]; intros s Hs Hst Hk.
  - destruct (progress self m s Hn Hproc Hs Hst) as (a & s1 & _ & Hlt). lia.
  - destruct (progress self m s Hn Hproc Hs Hst) as (a & s1 & Hstep & Hlt).
    pose proof (step_sound self m a s s1 Hn Hproc Hs Hstep) as Hs1.
    pose proof Hs1 as (_ & _ & _ & _ & _ & _ & _ & [Halive | [r Hr]]).
    + destruct (IH s1 Hs1 Halive ltac:(lia)) as (sched & s2 & r & Hex & Hr).
      exists (a :: sched), s2, r. split; [|exact Hr]. simpl. rewrite Hstep. exact Hex.
    + exists [a], s1, r. split; [|exact Hr]. simpl. rewrite Hstep. reflexivity.
Qed.

(** With a pool and jobs that do not raise, a run that has not returned
    yet can always be brought to its return, whatever has been lost on
    the counter. *)
Lemma run_can_complete self m args_list mt sv sched s :
  1 <= _n_jobs self ->
  (forall a d, snd (process m a d) = None) ->
  run self m args_list mt sv sched = Some s -> st s = Alive ->
  exists sched' s',
    run self m args_list mt sv (sched ++ sched') = Some s' /\
    st s' = Returned (resp_dict s') /\
    map targs (tasks s') = map resp_args args_list.
Proof.
  intros Hn Hproc Hrun Hst.
  pose proof (run_sound _ _ _ _ _ _ _ Hn Hproc Hrun) as Hs.
  destruct (can_complete self m Hn Hproc _ s Hs Hst (Nat.le_refl _))
    as (sched' & s' & r & Hex & Hr).
  assert (Hrun' : run self m args_list mt sv (sched ++ sched') = Some s').
  { unfold run in *. rewrite exec_app, Hrun. exact Hex. }
  exists sched', s'. split; [exact Hrun'|].
  pose proof (run_loop_inv _ _ _ _ _ _ _ Hrun') as [HJ HR].
  destruct (HR r Hr) as (Hpc & _ & ->). split; [exact Hr|].
  pose proof (run_submissions _ _ _ _ _ _ _ Hrun') as Hsub.
  rewrite (HJ Hpc) in Hsub. simpl in Hsub. rewrite app_nil_r in Hsub. exact Hsub.
Qed.

(** C4: the calls of [apply_async] made so far, followed by the jobs
    not yet reached, are always the input sequence with [resp_dict]
    appended to each tuple as its last element: each job is submitted at
    most once, in the order of the input.  When [run] returns, every job
    of the input has been submitted exactly once and [process] has been
    called on each submitted tuple once; and with at least one worker and
    jobs that do not raise, [run] does return: under the sequential
    schedule, and from wherever a run stands under some continuation of
    its schedule. *)
Theorem every_job_submitted_once_in_order self m args_list use_multithreading shared_vars :
  (forall sched s,
      run self m args_list use_multithreading shared_vars sched = Some s ->
      map targs (tasks s) ++ map (fun args => args ++ [ARespDict]) (todo s)
        = map (fun args => args ++ [ARespDict]) args_list /\
      (forall r, st s = Returned r ->
         map targs (tasks s) = map (fun args => args ++ [ARespDict]) args_list /\
         Permutation (invoked s) (map (fun args => args ++ [ARespDict]) args_list))) /\
  (1 <= _n_jobs self ->
   (forall a d, snd (process m a d) = None) ->
   (exists s,
       run self m args_list use_multithreading shared_vars (sequential (length args_list))
         = Some s /\
       st s = Returned (resp_dict s) /\
       map targs (tasks s) = map (fun args => args ++ [ARespDict]) args_list) /\
   (forall sched s,
       run self m args_list use_multithreading shared_vars sched = Some s ->
       st s = Alive ->
       exists sched' s',
         run self m args_list use_multithreading shared_vars (sched ++ sched') = Some s' /\
         st s' = Returned (resp_dict s') /\
         map targs (tasks s') = map (fun args => args ++ [ARespDict]) args_list)).
Proof.
  split.
  - intros sched s Hrun.
    pose proof (run_submissions _ _ _ _ _ _ _ Hrun) as Hsub.
    pose proof (run_loop_inv _ _ _ _ _ _ _ Hrun) as [HJ HR].
    split; [exact Hsub|].
    intros r Hr. destruct (HR r Hr) as (Hpc & _ & _). split.
    + rewrite (HJ Hpc) in Hsub. simpl in Hsub. rewrite app_nil_r in Hsub. exact Hsub.
    + exact (run_invoked _ _ _ _ _ _ _ _ Hrun Hr).
  - intros Hn Hproc. split.
    + destruct (sequential_run_returns self m args_list use_multithreading shared_vars
                  Hn Hproc) as (s & Hrun & Hst & Hts & _).
      exists s. repeat split; try assumption.
      rewrite Hts, map_map. reflexivity.
    + intros sched s Hrun Hst.
      exact (run_can_complete self m args_list use_multithreading shared_vars sched s
               Hn Hproc Hrun Hst).
Qed.

(** Three jobs on two workers, under a schedule where the first two run
    side by side; two jobs under the sequential schedule; and two jobs of
    a logic that never raises. *)
Lemma every_job_submitted_once_in_order_witness :
  let self := __init__ 4 2 1 in
  let jobs := [Examples.job 5; Examples.job 6; Examples.job 7] in
  (exists s,
      run self Examples.doubling jobs false PNone
        ([Main] ++ Examples.admission ++ Examples.admission ++ [Worker 1; Worker 0; Worker 1])%nat
        = Some s /\
      map targs (tasks s) = [Examples.job 5 ++ [ARespDict]; Examples.job 6 ++ [ARespDict]] /\
      map targs (tasks s) ++ map (fun args => args ++ [ARespDict]) (todo s)
        = map (fun args => args ++ [ARespDict]) jobs) /\
  (exists s,
      run self Examples.doubling [Examples.job 5; Examples.job 6] false PNone (sequential 2)
        = Some s /\
      st s = Returned [(PInt 6, PInt 12); (PInt 5, PInt 10)] /\
      map targs (tasks s) = [Examples.job 5 ++ [ARespDict]; Examples.job 6 ++ [ARespDict]] /\
      Permutation (invoked s) [Examples.job 5 ++ [ARespDict]; Examples.job 6 ++ [ARespDict]]) /\
  (exists s,
      run self Examples.tally [Examples.job 5; Examples.job 6] false PNone (sequential 2)
        = Some s /\
      st s = Returned (resp_dict s) /\
      map targs (tasks s) = [Examples.job 5 ++ [ARespDict]; Examples.job 6 ++ [ARespDict]]) /\
  (exists s,
      run self Examples.tally [Examples.job 5; Examples.job 6] false PNone
        ([Main] ++ Examples.admission ++ [Worker 0; Main; Main])%nat = Some s /\
      st s = Alive /\
      exists sched' s',
        run self Examples.tally [Examples.job 5; Examples.job 6] false PNone
          (([Main] ++ Examples.admission ++ [Worker 0; Main; Main])%nat ++ sched') = Some s' /\
        st s' = Returned (resp_dict s') /\
        map targs (tasks s')
          = map (fun args => args ++ [ARespDict]) [Examples.job 5; Examples.job 6]).
Proof.
  intros self jobs.
  assert (Hn : 1 <= _n_jobs self) by (simpl; lia).
  assert (Hproc : forall a d, snd (process Examples.tally a d) = None)
    by (intros a d; reflexivity).
  split; [|split; [|split]].
  - eexists. split; [vm_compute; reflexivity|]. split; [reflexivity|].
    eapply (proj1 (every_job_submitted_once_in_order self Examples.doubling jobs false PNone)
              ([Main] ++ Examples.admission ++ Examples.admission ++ [Worker 1; Worker 0; Worker 1])%nat).
    vm_compute. reflexivity.
  - eexists. split; [vm_compute; reflexivity|].
    split; [reflexivity|].
    eapply (proj1 (every_job_submitted_once_in_order self Examples.doubling
                     [Examples.job 5; Examples.job 6] false PNone) (sequential 2)).
    + vm_compute. reflexivity.
    + reflexivity.
  - apply (proj1 (proj2 (every_job_submitted_once_in_order self Examples.tally
                           [Examples.job 5; Examples.job 6] false PNone) Hn Hproc)).
  - eexists. split; [vm_compute; reflexivity|]. split; [reflexivity|].
    eapply (proj2 (proj2 (every_job_submitted_once_in_order self Examples.tally
                            [Examples.job 5; Examples.job 6] false PNone) Hn Hproc)
              ([Main] ++ Examples.admission ++ [Worker 0; Main; Main])%nat).
    + vm_compute. reflexivity.
    + reflexivity.
Defined.

(** ** How far the counter can drift *)

Lemma ndone_set_tst ts i t x :
  ts !! i = Some t ->
  (ndone (set_tst ts i t x) + (if is_done t then 1 else 0)
   = ndone ts + (if is_done {| targs := targs t; tst := x |} then 1 else 0))%nat.
Proof. apply (count_set_tst is_done). Qed.

Lemma ndone_app ts us : ndone (ts ++ us) = (ndone ts + ndone us)%nat.
Proof. unfold ndone. rewrite List.filter_app, length_app. reflexivity. Qed.

Lemma length_set_tst ts i t x : length (set_tst ts i t x) = length ts.
Proof. unfold set_tst. apply length_insert. Qed.

Lemma step_tracked self m a s s' :
  tracked s -> step self m a s = Some s' -> tracked s'.
Proof.
  intros (Hq & Hw & Ht) H. unfold tracked, counter_low, counter_high in *.
  step_cases H; simpl; use_eqs;
    rewrite ?length_set_tst, ?length_app, ?ndone_app;
    try match goal with
        | Hi : tasks s !! ?i = Some ?t, Hx : tst ?t = _ |- context [set_tst _ ?i ?t ?x] =>
            pose proof (ndone_set_tst (tasks s) i t x Hi) as Hset;
            unfold is_done in Hset; simpl in Hset; rewrite Hx in Hset; simpl in Hset
        end;
    try match goal with
        | Hi : tasks s !! ?i = Some ?t, Hx : tst ?t = DecWrite _ |- _ =>
            pose proof (Ht _ _ _ Hi Hx) as Hti
        end;
    try (pose proof (Hw _ eq_refl) as Hwi);
    (split; [|split]);
    try (intros; discriminate);
    try (simpl; lia);
    try assumption;
    try (intros tmp' Hpc; specialize (Hw _ Hpc); lia);
    try (intros j u tmp' Hj Hu;
         match goal with
         | Hi : tasks s !! _ = Some _ |- _ =>
             destruct (lookup_set_tst _ _ _ _ _ _ Hi Hj) as [[-> ->] | [_ Hj']]
         end;
         [simpl in Hu; try discriminate; inversion Hu; subst; lia
         | specialize (Ht _ _ _ Hj' Hu); lia]).
  - intros tmp' Htmp. inversion Htmp; subst. lia.
  - intros j u tmp' Hj Hu. specialize (Ht _ _ _ Hj Hu). lia.
  - intros j u tmp' Hj Hu. apply lookup_app_Some in Hj as [Hj | [_ Hj]].
    + specialize (Ht _ _ _ Hj Hu). unfold ndone at 2. simpl. lia.
    + destruct (j - length (tasks s))%nat; simpl in Hj; [|discriminate].
      inversion Hj; subst. discriminate.
Qed.

Lemma run_tracked self m args_list mt sv sched s :
  run self m args_list mt sv sched = Some s -> tracked s.
Proof.
  unfold run. apply (exec_invariant self m tracked).
  - intros a s1 s2. apply step_tracked.
  - unfold tracked, counter_low, counter_high, ndone; simpl.
    repeat split; try discriminate; try lia.
Qed.

(** X1: whatever the interleaving of a run with a pool, the counter is
    never above the worker limit, never above the number of calls
    submitted so far (plus one between the caller's store and its
    [apply_async]), and never below minus the number of calls whose
    [_execute] has returned. *)
Theorem counter_drift_bounds self m args_list use_multithreading shared_vars sched s :
  1 <= _n_jobs self ->
  run self m args_list use_multithreading shared_vars sched = Some s ->
  - Z.of_nat (ndone (tasks s)) <= queue_value s /\
  queue_value s <= _n_jobs self /\
  queue_value s <= Z.of_nat (length (tasks s)) + match pc s with Submit => 1 | _ => 0 end.
Proof.
  intros Hn Hrun.
  pose proof (run_tracked _ _ _ _ _ _ _ Hrun) as ([Hlo Hhi] & _).
  pose proof (counter_never_exceeds_limit _ _ _ _ _ _ _ Hrun Hn) as Hlim.
  unfold counter_low, counter_high in *. repeat split; assumption.
Qed.

(** The run of the four jobs in which an increment is lost: the counter
    ends at -1, with four calls finished. *)
Lemma counter_drift_bounds_witness :
  exists s,
    run (__init__ 4 2 1) Examples.doubling
      [Examples.job 1; Examples.job 2; Examples.job 3; Examples.job 4] false PNone
      Examples.lost_increment = Some s /\
    queue_value s = -1 /\ ndone (tasks s) = 4%nat /\
    - Z.of_nat (ndone (tasks s)) <= queue_value s /\
    queue_value s <= _n_jobs (__init__ 4 2 1) /\
    queue_value s <= Z.of_nat (length (tasks s)) + match pc s with Submit => 1 | _ => 0 end.
Proof.
  eexists. split; [vm_compute; reflexivity|]. split; [reflexivity|]. split; [reflexivity|].
  eapply (counter_drift_bounds (__init__ 4 2 1) Examples.doubling
            [Examples.job 1; Examples.job 2; Examples.job 3; Examples.job 4] false PNone
            Examples.lost_increment).
  - simpl. lia.
  - vm_compute. reflexivity.
Defined.

Lemma step_lengths self m a s s' :
  step self m a s = Some s' ->
  (length (tasks s') + length (todo s') = length (tasks s) + length (todo s))%nat.
Proof.
  intros H. apply step_submissions in H. apply (f_equal (@length _)) in H.
  rewrite !length_app, !length_map in H. exact H.
Qed.

Lemma step_no_wait self m a s s' :
  tracked s ->
  (Z.of_nat (length (tasks s) + length (todo s)) <= _n_jobs self) ->
  slept s = [] /\ Forall (fun r => forall a b, r <> LogDebugPoolFull a b) (logs s) ->
  step self m a s = Some s' ->
  slept s' = [] /\ Forall (fun r => forall a b, r <> LogDebugPoolFull a b) (logs s').
Proof.
  intros ([_ Hhi] & _) Hlen [Hsl Hlg] H. unfold counter_high in Hhi.
  step_cases H; simpl; try (split; assumption);
    try (split; [assumption|]; apply Forall_app; split; [assumption|];
         repeat constructor; intros; discriminate).
  exfalso.
  match goal with Hc : (_ <? _) = false |- _ => apply Z.ltb_ge in Hc end.
  repeat match goal with
         | E : pc s = _ |- _ => rewrite E in *; clear E
         | E : todo s = _ |- _ => rewrite E in *; clear E
         end.
  simpl in Hlen. lia.
Qed.

(** X2: when the job sequence has no more jobs than the worker limit,
    the caller never finds the pool full: it never sleeps and never logs
    the wait, whatever the interleaving and whatever was lost on the
    counter. *)
Theorem never_waits_with_enough_workers self m args_list use_multithreading shared_vars
    sched s :
  Z.of_nat (length args_list) <= _n_jobs self ->
  run self m args_list use_multithreading shared_vars sched = Some s ->
  slept s = [] /\ Forall (fun r => forall a b, r <> LogDebugPoolFull a b) (logs s).
Proof.
  intros Hlen Hrun.
  cut (tracked s /\
       (length (tasks s) + length (todo s) = length args_list)%nat /\
       (slept s = [] /\ Forall (fun r => forall a b, r <> LogDebugPoolFull a b) (logs s))).
  { intros (_ & _ & H). exact H. }
  revert Hrun. unfold run.
  apply (exec_invariant self m
           (fun s => tracked s /\
                     (length (tasks s) + length (todo s) = length args_list)%nat /\
                     (slept s = [] /\
                      Forall (fun r => forall a b, r <> LogDebugPoolFull a b) (logs s)))).
  - intros a s1 s2 (Ht & Hl & Hs) Hstep. split; [|split].
    + eapply step_tracked; eassumption.
    + rewrite (step_lengths _ _ _ _ _ Hstep). exact Hl.
    + eapply step_no_wait; try eassumption. rewrite Hl. exact Hlen.
  - split; [|split].
    + apply (run_tracked self m args_list use_multithreading shared_vars []). reflexivity.
    + reflexivity.
    + split; [reflexivity | constructor].
Qed.

(** Two jobs on two workers, with the decrement of one of them lost. *)
Lemma never_waits_with_enough_workers_witness :
  exists s,
    run (__init__ 4 2 1) Examples.doubling [Examples.job 1; Examples.job 2] false PNone
      Examples.lost_decrement = Some s /\
    queue_value s = 1 /\
    slept s = [] /\ Forall (fun r => forall a b, r <> LogDebugPoolFull a b) (logs s).
Proof.
  eexists. split; [vm_compute; reflexivity|]. split; [reflexivity|].
  eapply (never_waits_with_enough_workers (__init__ 4 2 1) Examples.doubling
            [Examples.job 1; Examples.job 2] false PNone Examples.lost_decrement).
  - simpl. lia.
  - vm_compute. reflexivity.
Defined.

(** With more jobs than workers the caller does wait. *)
Example waits_with_too_few_workers :
  option_map slept
    (run (__init__ 4 1 5) Examples.doubling [Examples.job 1; Examples.job 2] false PNone
       ([Main] ++ Examples.admission ++ [Main])%nat)
  = Some [5].
Proof. vm_compute. reflexivity. Qed.

(** ** What a run leaves behind *)

Lemma step_replay self m a s s' :
  resp_dict s = replay m (invoked s) -> step self m a s = Some s' ->
  resp_dict s' = replay m (invoked s').
Proof.
  intros Hr H. unfold replay in *.
  step_cases H; simpl; try assumption;
    rewrite fold_left_app; simpl; rewrite <- Hr;
    match goal with Hp : process m _ _ = _ |- _ => rewrite Hp end; reflexivity.
Qed.



Lemma step_logged self m a s s' :
  logged self s -> step self m a s = Some s' -> logged self s'.
Proof.
  intros Hl H. pose proof (step_alive _ _ _ _ _ H) as Hal.
  unfold logged in Hl. rewrite Hal in Hl. unfold logged, wait_records in *.
  step_cases H; simpl; use_eqs; try assumption.
  - rewrite map_app, Hl. reflexivity.
  - rewrite Hl. reflexivity.
  - split; [reflexivity|]. eexists _, _, _. split; [eassumption|]. split; [eassumption|].
    rewrite Hl. reflexivity.
Qed.



Lemma step_lock self m a s s' :
  lock_held s = in_loop (pc s) -> step self m a s = Some s' ->
  lock_held s' = in_loop (pc s').
Proof.
  intros Hl H. step_cases H; simpl; use_eqs; try assumption; try reflexivity;
    repeat match goal with E : pc s = _ |- _ => rewrite E in Hl; clear E end;
    exact Hl.
Qed.

(** X5: the manager lock is taken by the caller alone, when it enters
    the submission loop, and given back when the loop is over: it is held
    exactly while the caller is in the loop, so it is free during the
    join and when [run] returns; the workers never take it, not even to
    decrement the counter. *)
Theorem lock_is_held_in_the_loop_only self m args_list use_multithreading shared_vars
    sched s :
  run self m args_list use_multithreading shared_vars sched = Some s ->
  lock_held s = match pc s with Enter | Join => false | _ => true end /\
  (forall r, st s = Returned r -> lock_held s = false).
Proof.
  intros Hrun.
  assert (Hl : lock_held s = in_loop (pc s)).
  { revert Hrun. unfold run.
    apply (exec_invariant self m (fun s => lock_held s = in_loop (pc s))).
    - intros a s1 s2. apply step_lock.
    - reflexivity. }
  split; [exact Hl|]. intros r Hr.
  destruct (run_loop_inv _ _ _ _ _ _ _ Hrun) as [_ HR].
  destruct (HR r Hr) as (Hpc & _). rewrite Hl, Hpc. reflexivity.
Qed.

(** A worker decrements the counter while the caller holds the lock. *)
Lemma lock_is_held_in_the_loop_only_witness :
  exists s,
    run (__init__ 4 2 1) Examples.doubling [Examples.job 1; Examples.job 2] false PNone
      ([Main] ++ Examples.admission ++ Examples.carry 0)%nat = Some s /\
    queue_value s = 0 /\ pc s = Poll /\ lock_held s = true /\
    lock_held s = match pc s with Enter | Join => false | _ => true end.
Proof.
  eexists. split; [vm_compute; reflexivity|]. repeat (split; [reflexivity|]).
  eapply proj1.
  eapply (lock_is_held_in_the_loop_only (__init__ 4 2 1) Examples.doubling
            [Examples.job 1; Examples.job 2] false PNone
            ([Main] ++ Examples.admission ++ Examples.carry 0)%nat).
  vm_compute. reflexivity.
Defined.

(** ** What the constructor hands to [run] *)

(** X6: on a host with at least one core the resolved worker limit and
    waiting time are never negative, resolving them again changes
    nothing, and no sleep of a run is asked for a negative time. *)
Theorem resolved_attributes_are_settled (cpu n_jobs waiting_time : Z) :
  1 <= cpu ->
  0 <= _n_jobs (__init__ cpu n_jobs waiting_time) /\
  0 <= _waiting_time (__init__ cpu n_jobs waiting_time) /\
  __init__ cpu (_n_jobs (__init__ cpu n_jobs waiting_time))
               (_waiting_time (__init__ cpu n_jobs waiting_time))
    = __init__ cpu n_jobs waiting_time /\
  (forall m args_list use_multithreading shared_vars sched s,
      run (__init__ cpu n_jobs waiting_time) m args_list use_multithreading shared_vars sched
        = Some s ->
      Forall (fun t => 0 <= t) (slept s)).
Proof.
  intros Hcpu.
  assert (Hn : 0 <= _n_jobs (__init__ cpu n_jobs waiting_time)).
  { rewrite n_jobs_resolved. destruct (Z.ltb_spec n_jobs 0); lia. }
  assert (Hw : 0 <= _waiting_time (__init__ cpu n_jobs waiting_time)).
  { rewrite waiting_time_resolved. destruct (Z.ltb_spec waiting_time 0); lia. }
  split; [exact Hn|]. split; [exact Hw|]. split.
  - unfold __init__ at 1.
    destruct (Z.geb_spec (_n_jobs (__init__ cpu n_jobs waiting_time)) 0); [|lia].
    destruct (Z.geb_spec (_waiting_time (__init__ cpu n_jobs waiting_time)) 0); [|lia].
    reflexivity.
  - intros m args_list mt sv sched s Hrun.
    assert (HF : Forall (fun t => t = _waiting_time (__init__ cpu n_jobs waiting_time))
                        (slept s)).
    { revert Hrun. unfold run.
      apply (exec_invariant _ m (fun s => Forall (fun t => t = _waiting_time _) (slept s)));
        [intros a s1 s2; apply step_slept | constructor]. }
    eapply Forall_impl; [exact HF|]. intros t ->. exact Hw.
Qed.

(** A negative waiting time on a host with four cores, and a run that
    sleeps. *)
Lemma resolved_attributes_are_settled_witness :
  _n_jobs (__init__ 4 (-3) (-2)) = 4 /\
  _waiting_time (__init__ 4 (-3) (-2)) = 3600 /\
  0 <= _n_jobs (__init__ 4 (-3) (-2)) /\
  0 <= _waiting_time (__init__ 4 (-3) (-2)) /\
  __init__ 4 4 3600 = __init__ 4 (-3) (-2) /\
  exists s,
    run (__init__ 4 1 (-2)) Examples.doubling [Examples.job 1; Examples.job 2] false PNone
      ([Main] ++ Examples.admission ++ [Main])%nat = Some s /\
    slept s = [3600] /\ Forall (fun t => 0 <= t) (slept s).
Proof.
  assert (H4 : 1 <= 4) by lia.
  destruct (resolved_attributes_are_settled 4 (-3) (-2) H4) as (Hn & Hw & Hi & _).
  split; [reflexivity|]. split; [reflexivity|]. split; [exact Hn|]. split; [exact Hw|].
  split; [exact Hi|].
  eexists. split; [vm_compute; reflexivity|]. split; [reflexivity|].
  eapply (proj2 (proj2 (proj2 (resolved_attributes_are_settled 4 1 (-2) H4)))
            Examples.doubling [Examples.job 1; Examples.job 2] false PNone
            ([Main] ++ Examples.admission ++ [Main])%nat).
  vm_compute. reflexivity.
Defined.

(** X7: on a host with at least one core, [run] gets its pool for every
    [n_jobs] but 0, with as many workers as the resolved limit; for
    [n_jobs = 0] it raises the [ValueError] of the pool before anything
    else, with either kind of pool and whatever the jobs. *)
Theorem pool_is_built_unless_zero (cpu n_jobs waiting_time : Z) m args_list
    use_multithreading shared_vars :
  1 <= cpu ->
  let s0 := run_setup (__init__ cpu n_jobs waiting_time) m args_list use_multithreading
              shared_vars in
  (st s0 = Alive <-> n_jobs <> 0) /\
  (n_jobs <> 0 ->
   Z.of_nat (length (pool_workers s0)) = if n_jobs <? 0 then cpu else n_jobs) /\
  (n_jobs = 0 ->
   st s0 = Raised (ValueError "Number of processes must be at least 1")).
Proof.
  intros Hcpu s0.
  pose proof (n_jobs_resolved cpu n_jobs waiting_time) as Hres.
  split; [|split].
  - split.
    + intros Hal Hz. subst n_jobs.
      destruct (run_setup_raises (__init__ cpu 0 waiting_time) m args_list
                  use_multithreading shared_vars) as [Hr _]; [simpl; lia|].
      unfold s0 in Hal. rewrite Hr in Hal. discriminate.
    + intros Hnz. apply run_setup_alive. rewrite Hres.
      destruct (Z.ltb_spec n_jobs 0); lia.
  - intros Hnz. unfold s0, run_setup, ThreadPool, Pool. rewrite Hres.
    destruct (Z.ltb_spec n_jobs 0) as [Hneg|Hpos].
    + destruct (Z.ltb_spec cpu 1); [lia|].
      destruct (negb use_multithreading); simpl; rewrite repeat_length; lia.
    + destruct (Z.ltb_spec n_jobs 1); [lia|].
      destruct (negb use_multithreading); simpl; rewrite repeat_length; lia.
  - intros ->.
    destruct (run_setup_raises (__init__ cpu 0 waiting_time) m args_list
                use_multithreading shared_vars) as [Hr _]; [simpl; lia|].
    exact Hr.
Qed.

(** The default limit on four cores, a limit of three, and a limit of 0. *)
Lemma pool_is_built_unless_zero_witness :
  st (run_setup (__init__ 4 (-1) 1) Examples.doubling [Examples.job 1] false PNone) = Alive /\
  length (pool_workers (run_setup (__init__ 4 (-1) 1) Examples.doubling [Examples.job 1]
                          false PNone)) = 4%nat /\
  length (pool_workers (run_setup (__init__ 4 3 1) Examples.doubling [Examples.job 1]
                          true PNone)) = 3%nat /\
  st (run_setup (__init__ 4 0 1) Examples.doubling [] true PNone)
    = Raised (ValueError "Number of processes must be at least 1").
Proof.
  assert (H4 : 1 <= 4) by lia.
  split; [|split; [|split]].
  - apply (proj1 (pool_is_built_unless_zero 4 (-1) 1 Examples.doubling [Examples.job 1]
                    false PNone H4)). lia.
  - apply Nat2Z.inj.
    apply (proj1 (proj2 (pool_is_built_unless_zero 4 (-1) 1 Examples.doubling
                           [Examples.job 1] false PNone H4))). lia.
  - apply Nat2Z.inj.
    apply (proj1 (proj2 (pool_is_built_unless_zero 4 3 1 Examples.doubling
                           [Examples.job 1] true PNone H4))). lia.
  - apply (proj2 (proj2 (pool_is_built_unless_zero 4 0 1 Examples.doubling [] true PNone H4))).
    reflexivity.
Defined.

(** X8: in every worker of a pool of processes [par_lock] is the lock
    built in [run], whatever [get_shared_vars] returned: the further
    values reach [init_child] and are kept nowhere.  So the gate never
    fails there for want of the lock: on a free lock it runs
    [critical_section] and gives its result. *)
Theorem gate_is_ready_in_process_pool self m args_list shared_vars w args kwargs mu :
  In w (pool_workers (run_setup self m args_list false shared_vars)) ->
  locked mu = false ->
  par_lock w = Some HLock /\
  init_calls w = [[HLock] ++ (if truthy shared_vars then get_shared_vars m shared_vars
                              else [])] /\
  fst (_enter_crit_sec m w args kwargs mu)
    = match fst (critical_section m args kwargs (guarded mu)) with
      | Return v => GReturn v
      | Raise e => GRaise e
      end.
Proof.
  intros Hw Hfree. rewrite process_pool_runs_initializer in Hw.
  apply repeat_spec in Hw. subst w. split; [reflexivity|]. split; [reflexivity|].
  unfold _enter_crit_sec. simpl. rewrite Hfree. simpl.
  destruct (critical_section m args kwargs (guarded mu)) as [[v|e] d]; reflexivity.
Qed.

(** A pool of two processes with a shared value. *)
Lemma gate_is_ready_in_process_pool_witness :
  let s0 := run_setup (__init__ 4 2 1) Examples.doubling [Examples.job 1] false (PInt 3) in
  let w := {| par_lock := Some HLock; init_calls := [[HLock; HShared (PInt 3)]] |} in
  pool_workers s0 = [w; w] /\
  par_lock w = Some HLock /\
  fst (_enter_crit_sec Examples.doubling w [PInt 1] []
         {| locked := false; guarded := []; history := [] |}) = GReturn (PInt 0).
Proof.
  intros s0 w. split; [reflexivity|].
  destruct (gate_is_ready_in_process_pool (__init__ 4 2 1) Examples.doubling [Examples.job 1]
              (PInt 3) w [PInt 1] [] {| locked := false; guarded := []; history := [] |})
    as (H1 & _ & H3).
  - left. reflexivity.
  - reflexivity.
  - split; [exact H1 | exact H3].
Defined.

(** ** Mutual exclusion at the gate *)

Lemma gate_exec_invariant m (P : gstate -> Prop) :
  (forall i g g', P g -> gate_step m i g = Some g' -> P g') ->
  forall sched g g', P g -> gate_exec m sched g = Some g' -> P g'.
Proof.
  intros Hstep sched. induction sched as [|i sched IH]; intros g g' HP Hex; simpl in Hex.
  - congruence.
  - destruct (gate_step m i g) as [g1|] eqn:Hs; [|discriminate].
    eapply IH; [eapply Hstep; eassumption | exact Hex].
Qed.

Lemma gate_seq_snoc m w calls c mu :
  snd (gate_seq m w (calls ++ [c]) mu)
  = snd (_enter_crit_sec m w (fst c) (snd c) (snd (gate_seq m w calls mu))).
Proof.
  revert mu. induction calls as [|c0 calls IH]; intros mu; simpl.
  - destruct (_enter_crit_sec m w (fst c) (snd c) mu). reflexivity.
  - destruct (_enter_crit_sec m w (fst c0) (snd c0) mu) as [r mu1].
    specialize (IH mu1).
    destruct (gate_seq m w (calls ++ [c]) mu1), (gate_seq m w calls mu1). exact IH.
Qed.

Lemma enter_free m w l args kwargs mu :
  par_lock w = Some l -> locked mu = false ->
  _enter_crit_sec m w args kwargs mu =
  (match fst (critical_section m args kwargs (guarded mu)) with
   | Return v => GReturn v
   | Raise e => GRaise e
   end,
   {| locked := false;
      guarded := snd (critical_section m args kwargs (guarded mu));
      history := history mu ++ [EvAcquire; EvCall args kwargs; EvRelease] |}).
Proof.
  intros Hl Hfree. unfold _enter_crit_sec. rewrite Hl, Hfree. simpl.
  destruct (critical_section m args kwargs (guarded mu)) as [[v|e] d]; simpl;
    rewrite <- !app_assoc; reflexivity.
Qed.

Lemma gate_seq_free m w l calls mu :
  par_lock w = Some l -> locked mu = false ->
  locked (snd (gate_seq m w calls mu)) = false.
Proof.
  intros Hl. revert mu. induction calls as [|c calls IH]; intros mu Hfree; simpl.
  - exact Hfree.
  - rewrite (enter_free m w l _ _ mu Hl Hfree).
    match goal with |- context [gate_seq m w calls ?mu1] =>
      specialize (IH mu1 eq_refl); destruct (gate_seq m w calls mu1) end.
    exact IH.
Qed.

Lemma lookup_set_gpos cs i j (c u : gcall) p :
  cs !! i = Some c -> set_gpos cs i c p !! j = Some u ->
  (j = i /\ u = {| gargs := gargs c; gkwargs := gkwargs c; gpos := p |})
  \/ (j <> i /\ cs !! j = Some u).
Proof.
  intros Hi Hj. unfold set_gpos in Hj. destruct (decide (i = j)) as [->|Hne].
  - rewrite list_lookup_insert_eq in Hj by (eapply lookup_lt_Some; eassumption).
    inversion Hj. left. split; reflexivity.
  - rewrite list_lookup_insert_ne in Hj by exact Hne. right. split; [congruence | exact Hj].
Qed.

Lemma lookup_set_gpos_eq cs i (c : gcall) p :
  cs !! i = Some c ->
  set_gpos cs i c p !! i = Some {| gargs := gargs c; gkwargs := gkwargs c; gpos := p |}.
Proof.
  intros Hi. unfold set_gpos. apply list_lookup_insert_eq. eapply lookup_lt_Some. eassumption.
Qed.

Lemma gate_step_serial m w l mu0 i g g' :
  par_lock w = Some l -> locked mu0 = false ->
  serial m w mu0 g -> gate_step m i g = Some g' -> serial m w mu0 g'.
Proof.
  intros Hl Hfree Hs H. unfold gate_step in H.
  destruct (gcalls g !! i) as [c|] eqn:Hi; [|discriminate].
  destruct Hs as [[Hnone Hmem] | (k & ck & prefix & Hk & Hord & Huniq & Hshape)].
  - (* nobody holds the lock *)
    pose proof (Hnone i c Hi) as Hin. unfold inside in Hin.
    destruct (gpos c) eqn:Hp; try discriminate.
    assert (Hlk : locked (gmem g) = false)
      by (rewrite Hmem; eapply gate_seq_free; eassumption).
    rewrite Hlk in H. inversion H; subst g'; clear H.
    right. exists i, {| gargs := gargs c; gkwargs := gkwargs c; gpos := GHolding |}, (gorder g).
    simpl. split; [apply lookup_set_gpos_eq; exact Hi|]. split; [reflexivity|]. split.
    + intros j c' Hj Hc'. destruct (lookup_set_gpos _ _ _ _ _ _ Hi Hj) as [[-> _] | [_ Hj']].
      * reflexivity.
      * rewrite (Hnone j c' Hj') in Hc'. discriminate.
    + rewrite Hmem. reflexivity.
  - (* call [k] holds it *)
    simpl in Hshape.
    destruct (gpos c) eqn:Hp.
    + (* another call arrives: it waits *)
      destruct (gpos ck) eqn:Hpk; try contradiction.
      * rewrite Hshape in H. simpl in H. discriminate.
      * destruct Hshape as [Hshape _]. rewrite Hshape in H. simpl in H. discriminate.
    + (* the holder calls [critical_section] *)
      assert (i = k) by (apply (Huniq i c Hi); unfold inside; rewrite Hp; reflexivity).
      subst k. rewrite Hi in Hk. inversion Hk; subst ck. rewrite Hp in Hshape.
      destruct (critical_section m (gargs c) (gkwargs c) (guarded (gmem g))) as [res d] eqn:Hcs.
      inversion H; subst g'; clear H.
      right. exists i, {| gargs := gargs c; gkwargs := gkwargs c; gpos := GLeaving res |}, prefix.
      simpl. split; [apply lookup_set_gpos_eq; exact Hi|]. split; [exact Hord|]. split.
      * intros j c' Hj Hc'.
        destruct (lookup_set_gpos _ _ _ _ _ _ Hi Hj) as [[-> _] | [_ Hj']];
          [reflexivity | apply (Huniq j c' Hj' Hc')].
      * rewrite Hshape in Hcs |- *. simpl in *. rewrite Hcs. simpl.
        rewrite <- app_assoc. split; reflexivity.
    + (* the holder leaves the block *)
      assert (i = k) by (apply (Huniq i c Hi); unfold inside; rewrite Hp; reflexivity).
      subst k. rewrite Hi in Hk. inversion Hk; subst ck. rewrite Hp in Hshape.
      destruct Hshape as [Hshape Hres].
      inversion H; subst g'; clear H.
      left. simpl. split.
      * intros j c' Hj.
        destruct (lookup_set_gpos _ _ _ _ _ _ Hi Hj) as [[-> ->] | [Hne Hj']];
          [reflexivity|].
        destruct (inside c') eqn:Hc'; [|reflexivity].
        exfalso. apply Hne. apply (Huniq j c' Hj' Hc').
      * rewrite Hord, gate_seq_snoc. simpl.
        rewrite (enter_free m w l _ _ _ Hl (gate_seq_free m w l prefix mu0 Hl Hfree)).
        rewrite Hshape. simpl. rewrite <- app_assoc. reflexivity.
    + discriminate.
Qed.

Lemma gate_start_serial m w mu0 calls : serial m w mu0 (gate_start mu0 calls).
Proof.
  left. split; [|reflexivity]. intros i c Hi. unfold gate_start in Hi. simpl in Hi.
  rewrite list_lookup_fmap in Hi. destruct (calls !! i); simpl in Hi; [|discriminate].
  inversion Hi. reflexivity.
Qed.

(** X9: of the calls of [_enter_crit_sec] made side by side on a lock
    that starts free, at most one is inside the [with] block at any time,
    and the lock is taken exactly when one is: [critical_section] never
    runs in two workers at once. *)
Theorem gate_mutual_exclusion m mu0 calls sched g :
  locked mu0 = false ->
  gate_exec m sched (gate_start mu0 calls) = Some g ->
  (forall i j ci cj,
      gcalls g !! i = Some ci -> gcalls g !! j = Some cj ->
      inside ci = true -> inside cj = true -> i = j) /\
  (locked (gmem g) = true <-> exists i c, gcalls g !! i = Some c /\ inside c = true).
Proof.
  intros Hfree Hex.
  pose (w := init_child [HLock] fresh_worker).
  assert (Hs : serial m w mu0 g).
  { revert Hex. apply (gate_exec_invariant m (serial m w mu0)).
    - intros i g1 g2. apply (gate_step_serial m w HLock); [reflexivity | exact Hfree].
    - apply gate_start_serial. }
  destruct Hs as [[Hnone Hmem] | (k & ck & prefix & Hk & Hord & Huniq & Hshape)].
  - split.
    + intros i j ci cj Hi _ Hci. rewrite (Hnone i ci Hi) in Hci. discriminate.
    + split.
      * intros Hlk. rewrite Hmem in Hlk.
        rewrite (gate_seq_free m w HLock _ _ eq_refl Hfree) in Hlk. discriminate.
      * intros (i & c & Hi & Hc). rewrite (Hnone i c Hi) in Hc. discriminate.
  - split.
    + intros i j ci cj Hi Hj Hci Hcj.
      rewrite (Huniq i ci Hi Hci), (Huniq j cj Hj Hcj). reflexivity.
    + simpl in Hshape. split.
      * intros _. exists k, ck. split; [exact Hk|]. unfold inside.
        destruct (gpos ck); try contradiction; reflexivity.
      * intros _. destruct (gpos ck); try contradiction.
        -- rewrite Hshape. reflexivity.
        -- destruct Hshape as [-> _]. reflexivity.
Qed.

(** The second call has taken the lock and run its [critical_section]:
    the first one cannot enter. *)
Lemma gate_mutual_exclusion_witness :
  exists g,
    gate_exec Examples.doubling [1; 1]%nat (gate_start Examples.free_mem Examples.two_calls)
      = Some g /\
    gate_step Examples.doubling 0 g = None /\
    locked (gmem g) = true /\
    (forall i j ci cj,
        gcalls g !! i = Some ci -> gcalls g !! j = Some cj ->
        inside ci = true -> inside cj = true -> i = j) /\
    (locked (gmem g) = true <-> exists i c, gcalls g !! i = Some c /\ inside c = true).
Proof.
  eexists. split; [vm_compute; reflexivity|]. split; [reflexivity|]. split; [reflexivity|].
  eapply (gate_mutual_exclusion Examples.doubling Examples.free_mem Examples.two_calls
            [1; 1]%nat).
  - reflexivity.
  - vm_compute. reflexivity.
Defined.

Lemma gorder_same cs i c p :
  cs !! i = Some c -> got_lock c = got_lock {| gargs := gargs c; gkwargs := gkwargs c; gpos := p |} ->
  map gkey (List.filter got_lock (set_gpos cs i c p)) = map gkey (List.filter got_lock cs).
Proof.
  unfold set_gpos. revert i.
  induction cs as [|u cs IH]; intros [|i] H He; simpl in *; try discriminate.
  - inversion H; subst. rewrite <- He. destruct (got_lock c); reflexivity.
  - specialize (IH i H He). destruct (got_lock u); simpl; [f_equal|]; exact IH.
Qed.

Lemma gorder_new cs i c p :
  cs !! i = Some c -> got_lock c = false ->
  got_lock {| gargs := gargs c; gkwargs := gkwargs c; gpos := p |} = true ->
  Permutation (map gkey (List.filter got_lock cs) ++ [gkey c])
              (map gkey (List.filter got_lock (set_gpos cs i c p))).
Proof.
  unfold set_gpos. revert i.
  induction cs as [|u cs IH]; intros [|i] H Hf Ht; simpl in *; try discriminate.
  - inversion H; subst. rewrite Hf, Ht. simpl. symmetry. apply Permutation_cons_append.
  - specialize (IH i H Hf Ht). destruct (got_lock u); simpl; [|exact IH].
    apply perm_skip. exact IH.
Qed.

Lemma gkeys_set_gpos cs i c p :
  cs !! i = Some c -> map gkey (set_gpos cs i c p) = map gkey cs.
Proof.
  unfold set_gpos. revert i. induction cs as [|u cs IH]; intros [|i] H; simpl in *;
    try discriminate.
  - inversion H; subst. reflexivity.
  - f_equal. apply IH. exact H.
Qed.

Lemma gate_step_order m i g g' :
  Permutation (gorder g) (map gkey (List.filter got_lock (gcalls g))) ->
  gate_step m i g = Some g' ->
  Permutation (gorder g') (map gkey (List.filter got_lock (gcalls g')))
  /\ map gkey (gcalls g') = map gkey (gcalls g).
Proof.
  intros HP H. unfold gate_step in H.
  destruct (gcalls g !! i) as [c|] eqn:Hi; [|discriminate].
  destruct (gpos c) eqn:Hp.
  - destruct (locked (gmem g)); [discriminate|]. inversion H; subst g'; clear H. simpl.
    split; [|apply gkeys_set_gpos; exact Hi].
    etransitivity; [apply Permutation_app_tail; exact HP|].
    apply gorder_new; [exact Hi | unfold got_lock; rewrite Hp; reflexivity | reflexivity].
  - destruct (critical_section m (gargs c) (gkwargs c) (guarded (gmem g))) as [res d].
    inversion H; subst g'; clear H. simpl.
    split; [|apply gkeys_set_gpos; exact Hi].
    rewrite gorder_same; [exact HP | exact Hi | unfold got_lock; rewrite Hp; reflexivity].
  - inversion H; subst g'; clear H. simpl.
    split; [|apply gkeys_set_gpos; exact Hi].
    rewrite gorder_same; [exact HP | exact Hi | unfold got_lock; rewrite Hp; reflexivity].
  - discriminate.
Qed.

Lemma all_got_lock cs : forallb got_lock cs = true -> List.filter got_lock cs = cs.
Proof.
  induction cs as [|c cs IH]; simpl; [reflexivity|].
  intros H. apply andb_true_iff in H as [Hc Hcs]. rewrite Hc, (IH Hcs). reflexivity.
Qed.

(** X10: whenever the lock is free, the guarded state and the history of
    the lock are those the calls that went through the gate would have
    left had one worker made them one after the other, in the order in
    which they got the lock; every call that got the lock is in that
    order once, and when no call is left outside the order holds every
    call once. *)
Theorem gate_calls_are_serialised m w l mu0 calls sched g :
  par_lock w = Some l -> locked mu0 = false ->
  gate_exec m sched (gate_start mu0 calls) = Some g ->
  locked (gmem g) = false ->
  gmem g = snd (gate_seq m w (gorder g) mu0) /\
  Permutation (gorder g) (map gkey (List.filter got_lock (gcalls g))) /\
  (forallb got_lock (gcalls g) = true -> Permutation (gorder g) calls).
Proof.
  intros Hl Hfree Hex Hlk.
  assert (Hs : serial m w mu0 g).
  { revert Hex. apply (gate_exec_invariant m (serial m w mu0)).
    - intros i g1 g2. apply (gate_step_serial m w l); assumption.
    - apply gate_start_serial. }
  assert (Ho : Permutation (gorder g) (map gkey (List.filter got_lock (gcalls g)))
               /\ map gkey (gcalls g) = calls).
  { revert Hex.
    apply (gate_exec_invariant m
             (fun g => Permutation (gorder g) (map gkey (List.filter got_lock (gcalls g)))
                       /\ map gkey (gcalls g) = calls)).
    - intros i g1 g2 [HP Hk] Hstep.
      destruct (gate_step_order m i g1 g2 HP Hstep) as [HP' Hk'].
      split; [exact HP' | rewrite Hk'; exact Hk].
    - simpl. split.
      + induction calls as [|c calls IH]; simpl; [constructor | exact IH].
      + rewrite map_map. simpl. induction calls as [|[a k] calls IH]; simpl;
          [reflexivity | f_equal; exact IH]. }
  destruct Ho as [HP Hkeys]. split; [|split; [exact HP|]].
  - destruct Hs as [[_ Hmem] | (k & ck & prefix & _ & _ & _ & Hshape)]; [exact Hmem|].
    simpl in Hshape. destruct (gpos ck); try contradiction.
    + rewrite Hshape in Hlk. discriminate.
    + destruct Hshape as [Hshape _]. rewrite Hshape in Hlk. discriminate.
  - intros Hall. rewrite (all_got_lock _ Hall), Hkeys in HP. exact HP.
Qed.

(** The second call goes through the gate before the first. *)
Lemma gate_calls_are_serialised_witness :
  let w := init_child [HLock] fresh_worker in
  exists g,
    gate_exec Examples.doubling [1; 1; 1; 0; 0; 0]%nat
      (gate_start Examples.free_mem Examples.two_calls) = Some g /\
    gorder g = [([PInt 2], []); ([PInt 1], [])] /\
    map gpos (gcalls g) = [GOver (Return (PInt 1)); GOver (Return (PInt 0))] /\
    gmem g = snd (gate_seq Examples.doubling w (gorder g) Examples.free_mem) /\
    Permutation (gorder g) (map gkey (List.filter got_lock (gcalls g))) /\
    (forallb got_lock (gcalls g) = true -> Permutation (gorder g) Examples.two_calls).
Proof.
  intros w. eexists. split; [vm_compute; reflexivity|].
  split; [reflexivity|]. split; [reflexivity|].
  eapply (gate_calls_are_serialised Examples.doubling w HLock Examples.free_mem
            Examples.two_calls [1; 1; 1; 0; 0; 0]%nat);
    reflexivity.
Defined.

(** X11: calls of the gate made one after the other on a free lock never
    wait, and the lock is free again after them, whether
    [critical_section] returned or raised in any of them: an exception
    in the critical section does not leave the lock taken. *)
Theorem gate_never_leaks_the_lock m w l calls mu :
  par_lock w = Some l -> locked mu = false ->
  Forall (fun r => r <> GWait) (fst (gate_seq m w calls mu)) /\
  locked (snd (gate_seq m w calls mu)) = false /\
  length (fst (gate_seq m w calls mu)) = length calls.
Proof.
  intros Hl. revert mu. induction calls as [|c calls IH]; intros mu Hfree; simpl.
  - split; [constructor | split; [exact Hfree | reflexivity]].
  - rewrite (enter_free m w l _ _ mu Hl Hfree).
    match goal with |- context [gate_seq m w calls ?mu1] =>
      specialize (IH mu1 eq_refl); destruct (gate_seq m w calls mu1) as [rs mu2] end.
    simpl in *. destruct IH as (HF & Hlk & Hlen). split; [|split].
    + constructor; [|exact HF].
      destruct (fst (critical_section m (fst c) (snd c) (guarded mu))); discriminate.
    + exact Hlk.
    + rewrite Hlen. reflexivity.
Qed.

(** The base class, whose [critical_section] raises, called twice. *)
Lemma gate_never_leaks_the_lock_witness :
  let w := init_child [HLock] fresh_worker in
  fst (gate_seq Base w Examples.two_calls Examples.free_mem)
    = [GRaise (NotImplementedError not_defined_msg);
       GRaise (NotImplementedError not_defined_msg)] /\
  Forall (fun r => r <> GWait) (fst (gate_seq Base w Examples.two_calls Examples.free_mem)) /\
  locked (snd (gate_seq Base w Examples.two_calls Examples.free_mem)) = false /\
  length (fst (gate_seq Base w Examples.two_calls Examples.free_mem))
    = length Examples.two_calls.
Proof.
  intros w. split; [reflexivity|].
  apply (gate_never_leaks_the_lock Base w HLock Examples.two_calls Examples.free_mem);
    reflexivity.
Defined.

(** ** The counter in runs without interleaved updates *)

(** X12: in the runs in which nothing moves between the read and the
    store of an update of the counter, the counter is the number of
    submitted calls whose [_execute] has not returned, one more between
    the caller's increment and its [apply_async]; it stays between 0 and
    the worker limit and is 0 when [run] returns.  A call that raised
    keeps its slot. *)
Theorem counter_is_exact_without_interleaving self m args_list use_multithreading
    shared_vars sched s :
  1 <= _n_jobs self ->
  atomic_exec self m sched (run_setup self m args_list use_multithreading shared_vars)
    = Some s ->
  (exists sched', run self m args_list use_multithreading shared_vars sched' = Some s) /\
  0 <= queue_value s <= _n_jobs self /\
  queue_value s = Z.of_nat (undone (tasks s)) + (match pc s with Submit => 1 | _ => 0 end) /\
  (forall r, st s = Returned r -> queue_value s = 0).
Proof.
  intros Hn Hex. split.
  - destruct (atomic_exec_exec _ _ _ _ _ Hex) as [sched' Hex']. exists sched'. exact Hex'.
  - exact (atomic_updates_keep_counter _ _ _ _ _ _ _ Hn Hex).
Qed.

(** Two jobs side by side, one of which raises: its slot stays taken. *)
Lemma counter_is_exact_without_interleaving_witness :
  exists s,
    atomic_exec (__init__ 4 2 1) Examples.doubling
      ([Main] ++ [Main; Main; Main] ++ [Main; Main; Main]
       ++ [Worker 0; Worker 1; Worker 0; Worker 1; Worker 0])%nat
      (run_setup (__init__ 4 2 1) Examples.doubling [Examples.job 1; Examples.bad_job]
         false PNone) = Some s /\
    map tst (tasks s) = [Done; Failed (JobError PNone)] /\
    queue_value s = 1 /\
    (exists sched',
        run (__init__ 4 2 1) Examples.doubling [Examples.job 1; Examples.bad_job] false PNone
          sched' = Some s) /\
    0 <= queue_value s <= _n_jobs (__init__ 4 2 1) /\
    queue_value s = Z.of_nat (undone (tasks s)) + (match pc s with Submit => 1 | _ => 0 end) /\
    (forall r, st s = Returned r -> queue_value s = 0).
Proof.
  eexists. split; [vm_compute; reflexivity|]. split; [reflexivity|]. split; [reflexivity|].
  eapply (counter_is_exact_without_interleaving (__init__ 4 2 1) Examples.doubling
            [Examples.job 1; Examples.bad_job] false PNone
            ([Main] ++ [Main; Main; Main] ++ [Main; Main; Main]
             ++ [Worker 0; Worker 1; Worker 0; Worker 1; Worker 0])%nat).
  - simpl. lia.
  - vm_compute. reflexivity.
Defined.

(** ** Runs whose jobs do not raise *)

(** X13: with a pool and a job logic that never raises, no call is ever
    marked failed, no error is logged, and the process never exits: a run
    is either still going or has returned. *)
Theorem no_failure_no_exit self m args_list use_multithreading shared_vars sched s :
  1 <= _n_jobs self ->
  (forall a d, snd (process m a d) = None) ->
  run self m args_list use_multithreading shared_vars sched = Some s ->
  (st s = Alive \/ exists r, st s = Returned r) /\
  (forall i t e, tasks s !! i = Some t -> tst t <> Failed e) /\
  (forall e, ~ In (LogError e) (logs s)).
Proof.
  intros Hn Hproc Hrun.
  pose proof (run_sound _ _ _ _ _ _ _ Hn Hproc Hrun) as (_ & _ & Hnf & _ & _ & _ & _ & Hst).
  split; [exact Hst|]. split; [exact Hnf|].
  assert (Hl : logged self s).
  { revert Hrun. unfold run. apply (exec_invariant self m (logged self)).
    - intros a s1 s2. apply step_logged.
    - unfold logged, wait_records, run_setup, ThreadPool, Pool; simpl.
      destruct (negb use_multithreading); destruct (_n_jobs self <? 1); reflexivity. }
  intros e Hin. unfold logged, wait_records in Hl.
  destruct Hst as [Hal | [r Hr]].
  - rewrite Hal in Hl. rewrite Hl in Hin. apply in_map_iff in Hin as (t & Ht & _).
    discriminate.
  - rewrite Hr in Hl. rewrite Hl in Hin. apply in_app_or in Hin as [Hin | Hin].
    + apply in_map_iff in Hin as (t & Ht & _). discriminate.
    + destruct Hin as [Hin | []]. discriminate.
Qed.

(** X14: with a pool and a job logic that never raises, the sequential
    schedule makes [run] return what a plain loop over the jobs would
    have computed: the job logic applied to the tuples in the order of
    the input, each with [resp_dict] appended, from an empty dictionary;
    and the counter is back at 0. *)
Theorem sequential_run_is_a_loop self m args_list use_multithreading shared_vars :
  1 <= _n_jobs self ->
  (forall a d, snd (process m a d) = None) ->
  exists s,
    run self m args_list use_multithreading shared_vars (sequential (length args_list))
      = Some s /\
    st s = Returned (replay m (map (fun args => args ++ [ARespDict]) args_list)) /\
    queue_value s = 0.
Proof.
  intros Hn Hproc.
  destruct (sequential_run_returns self m args_list use_multithreading shared_vars Hn Hproc)
    as (s & Hrun & Hst & _ & Hiv & Hq).
  exists s. split; [exact Hrun|].
  assert (Hr : resp_dict s = replay m (invoked s)).
  { revert Hrun. unfold run.
    apply (exec_invariant self m (fun s => resp_dict s = replay m (invoked s))).
    - intros a s1 s2. apply step_replay.
    - reflexivity. }
  split; [rewrite Hst, Hr, Hiv; reflexivity | exact Hq].
Qed.

(** Three jobs of the logic that counts the entries it finds. *)
Lemma sequential_run_is_a_loop_witness :
  exists s,
    run (__init__ 4 2 1) Examples.tally [Examples.job 7; Examples.job 8; Examples.job 9]
      true PNone (sequential 3) = Some s /\
    st s = Returned [(PInt 2, PNone); (PInt 1, PNone); (PInt 0, PNone)] /\
    queue_value s = 0.
Proof.
  apply (sequential_run_is_a_loop (__init__ 4 2 1) Examples.tally
           [Examples.job 7; Examples.job 8; Examples.job 9] true PNone).
  - simpl. lia.
  - intros a d. reflexivity.
Defined.

(** Jobs that never raise, with a decrement lost on the way. *)
Lemma no_failure_no_exit_witness :
  exists s,
    run (__init__ 4 2 1) Examples.tally [Examples.job 1; Examples.job 2] false PNone
      Examples.lost_decrement = Some s /\
    st s = Returned [(PInt 1, PNone); (PInt 0, PNone)] /\
    (st s = Alive \/ exists r, st s = Returned r) /\
    (forall i t e, tasks s !! i = Some t -> tst t <> Failed e) /\
    (forall e, ~ In (LogError e) (logs s)).
Proof.
  eexists. split; [vm_compute; reflexivity|]. split; [reflexivity|].
  eapply (no_failure_no_exit (__init__ 4 2 1) Examples.tally
            [Examples.job 1; Examples.job 2] false PNone Examples.lost_decrement).
  - simpl. lia.
  - intros a d. reflexivity.
  - vm_compute. reflexivity.
Defined.
